(** * A shallow embedding of [main.c]: option parsing and the line copier

    The program parses its command line with getopt(3) ([-v], [-f file],
    [-n integer]), prints two summary lines and copies the file named by the
    last [-f] to standard output through a buffer of 80 bytes.

    The C program is embedded as functions in a state-and-exit monad over a
    [world] that holds what the process can observe or change: the file
    system, the table of open streams, the chronological log of I/O and
    [errno]; the variables of getopt are passed from call to call.  The C
    library functions the program calls are modelled after their ISO C,
    POSIX and glibc descriptions, with [int] of 32 bits and [unsigned long]
    of 64.

    The file has three parts: the embedding of the library and of the
    program; the vocabulary of the properties (the command line read as a
    list of options, the log of a run, open streams, numerals); the lemmas
    and the theorems. *)

From Stdlib Require Import ZArith Lia Ascii DecimalString DecimalZ DecimalPos.
From stdpp Require Import gmap strings list fin_maps.

Local Open Scope Z_scope.

(** ** C characters, strings and integers *)

Module CString.

Definition NUL : ascii := "000"%char.
Definition LF : ascii := "010"%char.

(** The code of a character as the [int] a C function returns for it. *)
Definition ch (c : ascii) : Z := Z.of_nat (nat_of_ascii c).

(** A C string literal: the two characters backslash-n denote a line feed. *)
Fixpoint lit (s : string) : string :=
  match s with
  | String "\"%char (String "n"%char rest) => String LF (lit rest)
  | String c rest => String c (lit rest)
  | EmptyString => EmptyString
  end.

(** What a function reading a NUL terminated string sees of the bytes [s]
    stored in an array: the bytes before the first NUL. *)
Fixpoint c_str (s : string) : string :=
  match s with
  | EmptyString => EmptyString
  | String c rest => if Ascii.eqb c NUL then EmptyString else String c (c_str rest)
  end.

(** No NUL byte: the text is a C string as it stands. *)
Fixpoint is_text (s : string) : bool :=
  match s with
  | EmptyString => true
  | String c rest => negb (Ascii.eqb c NUL) && is_text rest
  end.

Fixpoint contains (c : ascii) (s : string) : bool :=
  match s with
  | EmptyString => false
  | String d rest => Ascii.eqb d c || contains c rest
  end.

(** [strchr s c]: the suffix of [s] that starts at the first [c]. *)
Fixpoint strchr (s : string) (c : ascii) : option string :=
  match s with
  | EmptyString => None
  | String d rest => if Ascii.eqb d c then Some s else strchr rest c
  end.

Definition isspace (c : ascii) : bool :=
  let n := ch c in (n =? 32) || ((9 <=? n) && (n <=? 13)).

Definition isdigit (c : ascii) : bool :=
  let n := ch c in (48 <=? n) && (n <=? 57).

Definition digit_value (c : ascii) : Z := ch c - 48.

Fixpoint concat (l : list string) : string :=
  match l with
  | [] => EmptyString
  | s :: l' => s +:+ concat l'
  end.

End CString.
Import CString.

Module CInt.

Definition INT_MAX : Z := 2147483647.
Definition INT_MIN : Z := -2147483648.
Definition ULONG_MAX : Z := 18446744073709551615.

(** Conversion of an integer to [int] (32 bits, two's complement): the
    value is reduced modulo 2^32 into [INT_MIN .. INT_MAX]. *)
Definition to_int (z : Z) : Z := (z + 2147483648) mod 4294967296 - 2147483648.

(** Conversion to [unsigned long] (64 bits). *)
Definition to_ulong (z : Z) : Z := z mod 18446744073709551616.

(** The decimal text [printf] produces for [%d]. *)
Definition print_int (z : Z) : string := NilZero.string_of_int (Z.to_int z).

End CInt.
Import CInt.

Definition EOF : Z := -1.
Definition EXIT_SUCCESS : Z := 0.
Definition EXIT_FAILURE : Z := 1.
Definition ENOENT : Z := 2.
Definition EIO : Z := 5.
Definition EACCES : Z := 13.
Definition EISDIR : Z := 21.
Definition EINVAL : Z := 22.
Definition ERANGE : Z := 34.

(** The messages of the C library (glibc, Linux) for the error numbers up
    to [ELOOP] and for [EOVERFLOW]: those [open(2)] and [read(2)] give. *)
Definition sys_errlist : list (Z * string) :=
  [ (0, "Success");
    (1, "Operation not permitted");
    (2, "No such file or directory");
    (3, "No such process");
    (4, "Interrupted system call");
    (5, "Input/output error");
    (6, "No such device or address");
    (7, "Argument list too long");
    (8, "Exec format error");
    (9, "Bad file descriptor");
    (10, "No child processes");
    (11, "Resource temporarily unavailable");
    (12, "Cannot allocate memory");
    (13, "Permission denied");
    (14, "Bad address");
    (15, "Block device required");
    (16, "Device or resource busy");
    (17, "File exists");
    (18, "Invalid cross-device link");
    (19, "No such device");
    (20, "Not a directory");
    (21, "Is a directory");
    (22, "Invalid argument");
    (23, "Too many open files in system");
    (24, "Too many open files");
    (25, "Inappropriate ioctl for device");
    (26, "Text file busy");
    (27, "File too large");
    (28, "No space left on device");
    (29, "Illegal seek");
    (30, "Read-only file system");
    (31, "Too many links");
    (32, "Broken pipe");
    (33, "Numerical argument out of domain");
    (34, "Numerical result out of range");
    (35, "Resource deadlock avoided");
    (36, "File name too long");
    (37, "No locks available");
    (38, "Function not implemented");
    (39, "Directory not empty");
    (40, "Too many levels of symbolic links");
    (75, "Value too large for defined data type") ].

Fixpoint errlist_lookup (e : Z) (l : list (Z * string)) : option string :=
  match l with
  | [] => None
  | (n, msg) :: l' => if e =? n then Some msg else errlist_lookup e l'
  end.

(** [strerror]: the message of an error number, [Unknown error N] for a
    number without one. *)
Definition strerror (e : Z) : string :=
  match errlist_lookup e sys_errlist with
  | Some msg => msg
  | None => "Unknown error " +:+ print_int e
  end.

(** [printf] arguments and the two conversions the program uses. *)
Inductive arg := ArgInt (z : Z) | ArgStr (s : string).

Fixpoint format (fmt : string) (args : list arg) : string :=
  match fmt with
  | String "%"%char (String "d"%char rest) =>
      match args with
      | ArgInt z :: args' => print_int z +:+ format rest args'
      | _ => format rest (tail args)
      end
  | String "%"%char (String "s"%char rest) =>
      match args with
      | ArgStr s :: args' => c_str s +:+ format rest args'
      | _ => format rest (tail args)
      end
  | String c rest => String c (format rest args)
  | EmptyString => EmptyString
  end.

(** ** The world of the process *)

Inductive ostream := Stdout | Stderr.

(** An input stream: the bytes not yet read, and whether the read that
    follows the last byte fails with an I/O error instead of reporting
    end of file. *)
Record stream := Stream { s_data : string; s_fail : bool }.

Inductive fs_entry :=
  | Readable (f : stream)
  | Unreadable (errno : Z).

(** The I/O a process performs, in the order it happens. *)
Inductive io_event :=
  | Opened (h : nat)
  | Closed (h : nat)
  | Wrote (o : ostream) (s : string).

(** How getopt treats an argument that is not an option: glibc skips it
    ([PERMUTE]) unless [POSIXLY_CORRECT] is set, and then, as on the BSDs,
    the scan stops there ([REQUIRE_ORDER]). *)
Inductive ordering := REQUIRE_ORDER | PERMUTE.

(** The variables of getopt: the public [optind], [optarg] and [opterr] and
    the private pointer into the option element being scanned.  They are
    threaded through the calls explicitly. *)
Record getopt_data := GetoptData {
  optind : nat;
  nextchar : string;
  optarg : option string;
  opterr : Z
}.

Record world := World {
  w_fs : gmap string fs_entry;     (* path -> what opening it gives; absent: ENOENT *)
  w_open : gmap nat stream;        (* the streams fopen returned and fclose has not closed *)
  w_next : nat;                    (* the next stream handle *)
  w_log : list io_event;           (* I/O so far, oldest first *)
  w_stdout_ok : bool;              (* false: every write to stdout fails *)
  w_errno : Z;
  w_ordering : ordering               (* how getopt treats non-options here *)
}.

Definition set_open (m : gmap nat stream) (w : world) : world :=
  World (w_fs w) m (w_next w) (w_log w) (w_stdout_ok w) (w_errno w) (w_ordering w).
Definition set_next (n : nat) (w : world) : world :=
  World (w_fs w) (w_open w) n (w_log w) (w_stdout_ok w) (w_errno w) (w_ordering w).
Definition log_event (e : io_event) (w : world) : world :=
  World (w_fs w) (w_open w) (w_next w) (w_log w ++ [e]) (w_stdout_ok w) (w_errno w) (w_ordering w).
Definition set_errno (e : Z) (w : world) : world :=
  World (w_fs w) (w_open w) (w_next w) (w_log w) (w_stdout_ok w) e (w_ordering w).

(** The process as the C runtime starts it: no stream opened yet, nothing
    written. *)
Definition boot (fs : gmap string fs_entry) (stdout_ok : bool) (o : ordering) : world :=
  World fs ∅ 0%nat [] stdout_ok 0 o.

Definition set_opterr (e : Z) (g : getopt_data) : getopt_data :=
  GetoptData (optind g) (nextchar g) (optarg g) e.

(** getopt before its first call: at [argv[1]], diagnostics enabled. *)
Definition getopt_init : getopt_data := GetoptData 1 "" None 1.

(** The bytes written to one output stream, in order. *)
Fixpoint written (o : ostream) (log : list io_event) : string :=
  match log with
  | [] => ""
  | Wrote Stdout s :: log' =>
      match o with Stdout => s +:+ written o log' | Stderr => written o log' end
  | Wrote Stderr s :: log' =>
      match o with Stderr => s +:+ written o log' | Stdout => written o log' end
  | _ :: log' => written o log'
  end.

(** The handles that are open after the events of [log]. *)
Definition live_step (s : gset nat) (e : io_event) : gset nat :=
  match e with
  | Opened h => {[h]} ∪ s
  | Closed h => s ∖ {[h]}
  | Wrote _ _ => s
  end.
Definition live (log : list io_event) : gset nat := foldl live_step ∅ log.

(** ** The monad: state, [exit] and the limits of the model *)

Inductive fault := OutOfFuel | NullPointer.

Inductive outcome (A : Type) :=
  | Ret (a : A) (w : world)          (* the call returned [a] *)
  | Exit (status : Z) (w : world)    (* [exit status] ended the process *)
  | Fault (f : fault).               (* outside the model *)
Arguments Ret {A} a w.
Arguments Exit {A} status w.
Arguments Fault {A} f.

Definition M (A : Type) : Type := world → outcome A.

Global Instance M_ret : MRet M := λ A a w, Ret a w.
Global Instance M_bind : MBind M := λ A B k m w,
  match m w with
  | Ret a w' => k a w'
  | Exit s w' => Exit s w'
  | Fault f => Fault f
  end.

Definition exit {A} (status : Z) : M A := λ w, Exit status w.
Definition crash {A} (f : fault) : M A := λ _, Fault f.
Definition gets {A} (f : world → A) : M A := λ w, Ret (f w) w.
Definition modify (f : world → world) : M unit := λ w, Ret tt (f w).

(** ** The C library functions the program calls *)

Definition writable (o : ostream) (w : world) : bool :=
  match o with Stdout => w_stdout_ok w | Stderr => true end.

(** [fputs s o] writes the string stored in [s], up to its terminating NUL,
    and returns a non-negative number, or [EOF] when the write fails. *)
Definition fputs (s : string) (o : ostream) : M Z := λ w,
  if writable o w then Ret 1 (log_event (Wrote o (c_str s)) w) else Ret EOF w.

Definition fprintf (o : ostream) (fmt : string) (args : list arg) : M Z := λ w,
  let text := format (lit fmt) args in
  if writable o w
  then Ret (Z.of_nat (String.length text)) (log_event (Wrote o text) w)
  else Ret (-1) w.

Definition printf (fmt : string) (args : list arg) : M Z := fprintf Stdout fmt args.

Definition perror (s : string) : M unit := λ w,
  Ret tt (log_event (Wrote Stderr (s +:+ ": " +:+ strerror (w_errno w) +:+ lit "\n")) w).

(** [fopen path "r"]: a new stream on the file, or NULL with [errno] set. *)
Definition fopen (path mode : string) : M (option nat) := λ w,
  match w_fs w !! path with
  | Some (Readable f) =>
      let h := w_next w in
      Ret (Some h) (log_event (Opened h) (set_next (S h) (set_open (<[h := f]> (w_open w)) w)))
  | Some (Unreadable e) => Ret None (set_errno e w)
  | None => Ret None (set_errno ENOENT w)
  end.

Definition fclose (h : nat) : M Z := λ w,
  Ret 0 (log_event (Closed h) (set_open (delete h (w_open w)) w)).

(** Reading for [fgets]: at most [k] bytes, stopping after a line feed.  The
    result is the bytes read, the bytes left, and whether the read ran into
    the end of the data. *)
Fixpoint read_line (k : nat) (data : string) : string * string * bool :=
  match k with
  | O => ("", data, false)
  | S k' =>
      match data with
      | EmptyString => ("", "", true)
      | String c rest =>
          if Ascii.eqb c LF then (String c "", rest, false)
          else let '(line, rest', short) := read_line k' rest in (String c line, rest', short)
      end
  end.

(** [fgets buf n stream] for [n >= 2]: reads at most [n - 1] bytes into
    [buf] and terminates them with NUL; the result is the content of [buf]
    before that NUL, or NULL when nothing could be read or the read failed.
    A read that fails leaves its error number in [errno]: [EIO] here, the
    error of a failing device.  The program never looks at it. *)
Definition fgets (n : nat) (h : nat) : M (option string) := λ w,
  match w_open w !! h with
  | None => Ret None w
  | Some f =>
      let '(line, rest, short) := read_line (n - 1) (s_data f) in
      let w' := set_open (<[h := Stream rest (s_fail f)]> (w_open w)) w in
      if short && s_fail f then Ret None (set_errno EIO w')
      else match line with
           | EmptyString => Ret None w'
           | String _ _ => Ret (Some line) w'
           end
  end.

(** [strtoul nptr NULL 10]: white space, an optional sign, then decimal
    digits; no digits give 0, a value beyond [ULONG_MAX] gives [ULONG_MAX]
    and [ERANGE], a minus sign negates in [unsigned long]. *)
Fixpoint skip_space (s : string) : string :=
  match s with
  | String c rest => if isspace c then skip_space rest else s
  | EmptyString => EmptyString
  end.

Fixpoint scan_digits (s : string) (acc : Z) (overflow : bool) : Z * bool :=
  match s with
  | String c rest =>
      if isdigit c then
        let acc' := acc * 10 + digit_value c in
        if overflow || (ULONG_MAX <? acc') then scan_digits rest acc true
        else scan_digits rest acc' false
      else (acc, overflow)
  | EmptyString => (acc, overflow)
  end.

Definition strtoul_parse (nptr : string) : Z * bool :=
  let s := skip_space nptr in
  let '(negative, s') :=
    match s with
    | String c rest =>
        if Ascii.eqb c "-" then (true, rest)
        else if Ascii.eqb c "+" then (false, rest)
        else (false, s)
    | EmptyString => (false, s)
    end in
  let '(acc, overflow) := scan_digits s' 0 false in
  if overflow then (ULONG_MAX, true)
  else (if negative then to_ulong (- acc) else acc, false).

Definition strtoul_value (nptr : string) : Z := fst (strtoul_parse nptr).

Definition strtoul (nptr : string) : M Z := λ w,
  let '(value, overflow) := strtoul_parse nptr in
  Ret value (if overflow then set_errno ERANGE w else w).

(** [basename] of <libgen.h>: the last component of a path. *)
Fixpoint strip_trailing_slashes (s : string) : string :=
  match s with
  | EmptyString => EmptyString
  | String c rest =>
      match strip_trailing_slashes rest with
      | EmptyString => if Ascii.eqb c "/" then EmptyString else String c EmptyString
      | r => String c r
      end
  end.

Fixpoint last_component (s : string) : string :=
  match s with
  | EmptyString => EmptyString
  | String c rest =>
      if contains "/" rest then last_component rest
      else if Ascii.eqb c "/" then rest else s
  end.

Definition basename (path : string) : string :=
  match path with
  | EmptyString => "."
  | _ => match strip_trailing_slashes path with
         | EmptyString => "/"
         | p => last_component p
         end
  end.

(** ** getopt(3)

    One call of [getopt argc argv optstring] as glibc implements it for short
    options, for an [optstring] without a leading [+] or [-].  The program
    reads neither [optind] nor the elements of [argv] after the scan, so the
    exchange of skipped non-options with later options, which changes no
    result of getopt, is left out: [optind] is the position of the scan. *)

(** [argv[optind][0] != '-' || argv[optind][1] == '\0'] *)
Definition NONOPTION_P (a : string) : bool :=
  match a with
  | String "-"%char (String _ _) => false
  | _ => true
  end.

Fixpoint count_nonoptions (l : list string) : nat :=
  match l with
  | a :: l' => if NONOPTION_P a then S (count_nonoptions l') else O
  | [] => O
  end.

Definition invalid_option (argv : list string) (c : ascii) : string :=
  format (lit "%s: invalid option -- '") [ArgStr (default "" (argv !! 0%nat))]
    +:+ String c (lit "'\n").

Definition requires_argument (argv : list string) (c : ascii) : string :=
  format (lit "%s: option requires an argument -- '") [ArgStr (default "" (argv !! 0%nat))]
    +:+ String c (lit "'\n").

(** The next short option character: [cs] is what is left of the option
    element at index [i]. *)
Definition short_option (argv : list string) (optstring : string) (err : Z)
    (i : nat) (cs : string) : Z * getopt_data * option string :=
  match cs with
  | EmptyString => (EOF, GetoptData i "" None err, None)
  | String c rest =>
      (* optind moves on when the last character of the element is taken *)
      let i' := match rest with EmptyString => S i | _ => i end in
      let unknown := (ch "?", GetoptData i' rest None err, Some (invalid_option argv c)) in
      match strchr optstring c with
      | None => unknown
      | Some temp =>
          if Ascii.eqb c ":" || Ascii.eqb c ";" then unknown
          else match temp with
               | String _ (String ":"%char (String ":"%char _)) =>
                   (* an optional argument: the rest of the element, if any *)
                   match rest with
                   | EmptyString => (ch c, GetoptData i' "" None err, None)
                   | _ => (ch c, GetoptData (S i') "" (Some rest) err, None)
                   end
               | String _ (String ":"%char _) =>
                   (* a required argument: the rest of the element, or the next one *)
                   match rest with
                   | String _ _ => (ch c, GetoptData (S i') "" (Some rest) err, None)
                   | EmptyString =>
                       match argv !! i' with
                       | Some a => (ch c, GetoptData (S i') "" (Some a) err, None)
                       | None =>
                           (match optstring with String ":"%char _ => ch ":" | _ => ch "?" end,
                            GetoptData i' "" None err, Some (requires_argument argv c))
                       end
                   end
               | _ => (ch c, GetoptData i' rest None err, None)
               end
      end
  end.

Definition getopt_scan (o : ordering) (argv : list string) (optstring : string)
    (g : getopt_data) : Z * getopt_data * option string :=
  match argv with
  | [] => (EOF, g, None)                      (* argc < 1 *)
  | _ =>
      match nextchar g with
      | String _ _ as cs => short_option argv optstring (opterr g) (optind g) cs
      | EmptyString =>
          (* advance to the next element of argv *)
          let i := match o with
                   | PERMUTE => (optind g + count_nonoptions (drop (optind g) argv))%nat
                   | REQUIRE_ORDER => optind g
                   end in
          match argv !! i with
          | None => (EOF, GetoptData i "" None (opterr g), None)
          | Some a =>
              if String.eqb a "--" then (EOF, GetoptData (length argv) "" None (opterr g), None)
              else if NONOPTION_P a then (EOF, GetoptData i "" None (opterr g), None)
              else short_option argv optstring (opterr g) i
                     (match a with String _ cs => cs | EmptyString => EmptyString end)
          end
      end
  end.

Definition getopt (argv : list string) (optstring : string) (g : getopt_data)
    : M (Z * getopt_data) := λ w,
  let '(r, g', diag) := getopt_scan (w_ordering w) argv optstring g in
  match diag with
  | Some msg =>
      if (opterr g =? 0) || (match optstring with String ":"%char _ => true | _ => false end)
      then Ret (r, g') w
      else Ret (r, g') (log_event (Wrote Stderr msg) w)
  | None => Ret (r, g') w
  end.

(** ** The program *)

Definition OPTSTR : string := "vf:n:".

(** [char buf[80]] *)
Definition sizeof_buf : nat := 80.

(** [while (fgets(buf, sizeof(buf)-1, filep)) fputs(buf, output);] *)
Fixpoint dump_loop (fuel : nat) (filep : nat) (output : ostream) : M unit :=
  match fuel with
  | O => crash OutOfFuel
  | S fuel' =>
      buf ← fgets (sizeof_buf - 1) filep;
      match buf with
      | None => mret tt
      | Some buf => fputs buf output;; dump_loop fuel' filep output
      end
  end.

(** Every turn of the loop takes at least one byte from the stream, so one
    turn more than there are bytes left is enough. *)
Definition dump_fuel (filep : nat) (w : world) : nat :=
  match w_open w !! filep with
  | Some f => S (String.length (s_data f))
  | None => 1
  end.

Definition dump_file (filep : option nat) (output : ostream) : M Z :=
  match filep with
  | None =>
      modify (set_errno EINVAL);;
      mret (-1)
  | Some h =>
      fuel ← gets (dump_fuel h);
      dump_loop fuel h output;;
      mret 0
  end.

(** The local variables of [main]. *)
Record locals := Locals {
  verbose : Z;
  number : Z;
  fp : option nat
}.

(** [switch (opt) { case 'v': ... }], the body of the option loop. *)
Definition main_switch (argv : list string) (opt : Z) (optarg : option string)
    (l : locals) : M locals :=
  if opt =? ch "v" then
    mret (Locals (to_int (verbose l + 1)) (number l) (fp l))
  else if opt =? ch "f" then
    match fp l with Some h => fclose h | None => mret 0 end;;
    match optarg with
    | None => crash NullPointer
    | Some path =>
        fp' ← fopen path "r";
        match fp' with
        | None =>
            perror "-f: error opening file";;
            exit EXIT_FAILURE
        | Some h => mret (Locals (verbose l) (number l) (Some h))
        end
    end
  else if opt =? ch "n" then
    match optarg with
    | None => crash NullPointer
    | Some value =>
        n ← strtoul value;
        mret (Locals (verbose l) (to_int n) (fp l))
    end
  else
    (* case 'h': case '?': default: *)
    match argv with
    | [] => crash NullPointer
    | argv0 :: _ =>
        fprintf Stderr "usage: %s [-v]|[-f filename][-n integer]\n"
          [ArgStr (basename argv0)];;
        exit EXIT_FAILURE
    end.

(** [while ((opt = getopt(argc, argv, OPTSTR)) != EOF) switch (opt) ...] *)
Fixpoint main_loop (fuel : nat) (argv : list string) (g : getopt_data) (l : locals)
    : M locals :=
  match fuel with
  | O => crash OutOfFuel
  | S fuel' =>
      '(opt, g') ← getopt argv OPTSTR g;
      if opt =? EOF then mret l
      else l' ← main_switch argv opt (optarg g') l; main_loop fuel' argv g' l'
  end.

(** Every call of getopt that does not end the scan takes a character of
    [argv], so one call more than there are characters is enough. *)
Definition main_fuel (argv : list string) : nat :=
  S (sum_list (String.length <$> argv)).

Definition main (argv : list string) : M Z :=
  let g := set_opterr 0 getopt_init in                     (* opterr = 0; *)
  l ← main_loop (main_fuel argv) argv g (Locals 0 0 None);
  printf "verbose = %d\n" [ArgInt (verbose l)];;
  printf "number  = %d\n" [ArgInt (number l)];;
  r ← dump_file (fp l) Stdout;
  if r <? 0 then
    perror "dump_file";;
    exit EXIT_FAILURE
  else mret EXIT_SUCCESS.

(** The process: the value [main] returns is its exit status. *)
Definition run (argv : list string) (w : world) : outcome Empty_set :=
  match main argv w with
  | Ret status w' => Exit status w'
  | Exit status w' => Exit status w'
  | Fault f => Fault f
  end.

Definition status_of {A} (r : outcome A) : option Z :=
  match r with Exit s _ => Some s | _ => None end.
Definition log_of {A} (r : outcome A) : list io_event :=
  match r with Exit _ w | Ret _ w => w_log w | Fault _ => [] end.
Definition stdout_of {A} (r : outcome A) : string := written Stdout (log_of r).
Definition stderr_of {A} (r : outcome A) : string := written Stderr (log_of r).

(** ** The command line, read as a list of options

    What the flags of a command line are, told without the variables of
    getopt: an element [-xyz] is a cluster of option characters, [f] and [n]
    take the rest of their element as argument or, when nothing is left, the
    next element; [--] ends the options; an element that is no option is
    skipped or ends the options, as the [ordering] says. *)

Inductive flag :=
  | OptV                      (* -v *)
  | OptF (path : string)      (* -f path *)
  | OptN (value : string)     (* -n value *)
  | OptBad.                   (* -h, an unknown character, a missing argument *)

Global Instance flag_eq_dec : EqDecision flag.
Proof. solve_decision. Defined.

(** An option at the end of its element still waits for its argument. *)
Inductive pending := NoArg | NeedF | NeedN.

Fixpoint cluster (cs : string) : list flag * pending :=
  match cs with
  | EmptyString => ([], NoArg)
  | String c rest =>
      if Ascii.eqb c "v" then
        let '(os, p) := cluster rest in (OptV :: os, p)
      else if Ascii.eqb c "f" then
        match rest with
        | EmptyString => ([], NeedF)
        | _ => ([OptF rest], NoArg)
        end
      else if Ascii.eqb c "n" then
        match rest with
        | EmptyString => ([], NeedN)
        | _ => ([OptN rest], NoArg)
        end
      else
        let '(os, p) := cluster rest in (OptBad :: os, p)
  end.

Fixpoint options (o : ordering) (p : pending) (args : list string) : list flag :=
  match args with
  | [] => match p with NoArg => [] | _ => [OptBad] end
  | a :: args' =>
      match p with
      | NeedF => OptF a :: options o NoArg args'
      | NeedN => OptN a :: options o NoArg args'
      | NoArg =>
          if String.eqb a "--" then []
          else if NONOPTION_P a then
            match o with
            | PERMUTE => options o NoArg args'
            | REQUIRE_ORDER => []
            end
          else
            let '(os, p') := cluster (match a with String _ cs => cs | EmptyString => "" end) in
            os ++ options o p' args'
      end
  end.

(** The options of the command line [argv], whose first element names the
    program. *)
Definition command_line (o : ordering) (argv : list string) : list flag :=
  options o NoArg (tail argv).

(** The number of [-v] flags, and the options that are left without them. *)
Fixpoint count_v (es : list flag) : nat :=
  match es with
  | [] => O
  | OptV :: es' => S (count_v es')
  | _ :: es' => count_v es'
  end.

Fixpoint without_v (es : list flag) : list flag :=
  match es with
  | [] => []
  | OptV :: es' => without_v es'
  | e :: es' => e :: without_v es'
  end.

(** The argument of the last [-n], and of the last [-f]. *)
Fixpoint last_n (es : list flag) : option string :=
  match es with
  | [] => None
  | OptN s :: es' => match last_n es' with None => Some s | r => r end
  | _ :: es' => last_n es'
  end.

Fixpoint last_f (es : list flag) : option string :=
  match es with
  | [] => None
  | OptF s :: es' => match last_f es' with None => Some s | r => r end
  | _ :: es' => last_f es'
  end.

(** Every flag is known and every file named by a [-f] can be opened. *)
Fixpoint accepted (fs : gmap string fs_entry) (es : list flag) : bool :=
  match es with
  | [] => true
  | OptBad :: _ => false
  | OptF path :: es' =>
      match fs !! path with
      | Some (Readable _) => accepted fs es'
      | _ => false
      end
  | _ :: es' => accepted fs es'
  end.

(** What getopt returns for an option, and what it leaves in [optarg]. *)
Definition opt_code (e : flag) : Z :=
  match e with
  | OptV => ch "v"
  | OptF _ => ch "f"
  | OptN _ => ch "n"
  | OptBad => ch "?"
  end.

Definition opt_arg (e : flag) : option string :=
  match e with
  | OptF s | OptN s => Some s
  | _ => None
  end.

(** The options getopt has still to report in state [g]. *)
Definition remaining (o : ordering) (argv : list string) (g : getopt_data) : list flag :=
  match nextchar g with
  | EmptyString => options o NoArg (drop (optind g) argv)
  | cs => let '(os, p) := cluster cs in os ++ options o p (drop (S (optind g)) argv)
  end.

(** The option loop, unrolled over a list of options. *)
Fixpoint process (argv : list string) (es : list flag) (l : locals) : M locals :=
  match es with
  | [] => mret l
  | e :: es' =>
      l' ← main_switch argv (opt_code e) (opt_arg e) l;
      process argv es' l'
  end.

(** ** The vocabulary of the properties

    The definitions the lemmas and theorems below are stated with: the
    relation between getopt and the options of the command line, what a run
    leaves in the log, the complaints of the option loop, the open streams
    and the value of a numeric argument. *)

(** The state of a scan in progress, with diagnostics switched off. *)
Definition scanning (argv : list string) (g : getopt_data) : Prop :=
  opterr g = 0 ∧ (nextchar g ≠ "" → argv ≠ []).

(** What one call of getopt does, in terms of the options still to come. *)
Definition reports (o : ordering) (argv : list string)
    (g : getopt_data) (r : Z) (g' : getopt_data) : Prop :=
  scanning argv g' ∧
  match remaining o argv g with
  | [] => r = EOF
  | e :: es => r = opt_code e ∧ optarg g' = opt_arg e ∧ remaining o argv g' = es
  end.

(** The parts of the world no call of the program changes. *)
Definition same_env (w w' : world) : Prop :=
  w_fs w' = w_fs w ∧ w_stdout_ok w' = w_stdout_ok w ∧ w_ordering w' = w_ordering w.

(** The world after [if (fp) fclose(fp);]. *)
Definition after_close (l : locals) (w : world) : world :=
  match fp l with
  | Some h => log_event (Closed h) (set_open (delete h (w_open w)) w)
  | None => w
  end.

(** A line feed ends the bytes one read returns. *)
Fixpoint ends_at_LF (s : string) : bool :=
  match s with
  | EmptyString => true
  | String c EmptyString => true
  | String c rest => negb (Ascii.eqb c LF) && ends_at_LF rest
  end.

(** The bytes the successive reads of the loop return, for a stream [f]. *)
Fixpoint reads (fuel : nat) (f : stream) : list string :=
  match fuel with
  | O => []
  | S fuel' =>
      let '(line, rest, short) := read_line (sizeof_buf - 2) (s_data f) in
      if short && s_fail f then []
      else match line with
           | EmptyString => []
           | String _ _ => line :: reads fuel' (Stream rest (s_fail f))
           end
  end.

(** Events that open or close streams and write nothing. *)
Definition quiet (evs : list io_event) : Prop :=
  Forall (λ e, match e with Wrote _ _ => False | _ => True end) evs.

(** The value of [number] after the options [es]. *)
Definition number_after (es : list flag) (n : Z) : Z :=
  match last_n es with
  | Some value => to_int (strtoul_value value)
  | None => n
  end.

(** What an accepted list of options leaves behind: the counters, the
    stream of the last [-f], and a log without output. *)
Record parsed (es : list flag) (l : locals) (w : world) (l' : locals) (w' : world) : Prop := {
  parsed_verbose : verbose l' = to_int (verbose l + Z.of_nat (count_v es));
  parsed_number : number l' = number_after es (number l);
  parsed_input :
    match last_f es with
    | Some path =>
        ∃ h f, fp l' = Some h ∧ w_fs w !! path = Some (Readable f) ∧ w_open w' !! h = Some f
    | None => fp l' = fp l ∧ w_open w' = w_open w ∧ w_log w' = w_log w
    end;
  parsed_log : ∃ evs, w_log w' = w_log w ++ evs ∧ quiet evs;
  parsed_env : same_env w w'
}.

(** The pieces [dump_file] writes for a stream: what each read returned, as
    [fputs] sees it. *)
Definition copied (f : stream) : list string :=
  c_str <$> reads (S (String.length (s_data f))) f.

Definition verbose_line (v : Z) : string := "verbose = " +:+ print_int v +:+ lit "\n".
Definition number_line (n : Z) : string := "number  = " +:+ print_int n +:+ lit "\n".

(** The two lines of the summary. *)
Definition summary (v n : Z) : list io_event :=
  [Wrote Stdout (verbose_line v); Wrote Stdout (number_line n)].

(** The statements of [main] that follow the option loop. *)
Definition finish (l : locals) : M Z :=
  printf "verbose = %d\n" [ArgInt (verbose l)];;
  printf "number  = %d\n" [ArgInt (number l)];;
  r ← dump_file (fp l) Stdout;
  if r <? 0 then
    perror "dump_file";;
    exit EXIT_FAILURE
  else mret EXIT_SUCCESS.

(** The world after an attempt to write [s] to [o]. *)
Definition put (o : ostream) (s : string) (w : world) : world :=
  if writable o w then log_event (Wrote o s) w else w.

Definition usage_message (argv0 : string) : string :=
  "usage: " +:+ c_str (basename argv0) +:+ lit " [-v]|[-f filename][-n integer]\n".

Definition open_errno (fs : gmap string fs_entry) (path : string) : Z :=
  match fs !! path with
  | Some (Unreadable e) => e
  | _ => ENOENT
  end.

Definition open_error (e : Z) : string :=
  "-f: error opening file: " +:+ strerror e +:+ lit "\n".

(** The complaint an option draws, if any. *)
Definition diagnosis (fs : gmap string fs_entry) (argv0 : string) (e : flag) : option string :=
  match e with
  | OptBad => Some (usage_message argv0)
  | OptF path =>
      match fs !! path with
      | Some (Readable _) => None
      | _ => Some (open_error (open_errno fs path))
      end
  | _ => None
  end.

(** At no point of the log is more than one stream open. *)
Definition tidy (log : list io_event) : Prop :=
  ∀ p, p `prefix_of` log → (size (live p) ≤ 1)%nat.

Definition as_set (filep : option nat) : gset nat :=
  match filep with Some h => {[h]} | None => ∅ end.

(** [fp] is the one stream that is open, if any. *)
Record linked (l : locals) (w : world) : Prop := {
  linked_fp : live (w_log w) = as_set (fp l);
  linked_open : dom (w_open w) = live (w_log w);
  linked_tidy : tidy (w_log w)
}.

(** The log accounts for the streams that are open, and is tidy. *)
Definition settled (w : world) : Prop :=
  tidy (w_log w) ∧ dom (w_open w) = live (w_log w).

(** The values of [verbose] and [number] the summary shows. *)
Definition shown_verbose (o : ordering) (argv : list string) : Z :=
  to_int (Z.of_nat (count_v (command_line o argv))).
Definition shown_number (o : ordering) (argv : list string) : Z :=
  number_after (command_line o argv) 0.

(** The first complaint a list of options draws. *)
Fixpoint complaint (fs : gmap string fs_entry) (argv0 : string) (es : list flag) : option string :=
  match es with
  | [] => None
  | e :: es' =>
      match diagnosis fs argv0 e with
      | Some msg => Some msg
      | None => complaint fs argv0 es'
      end
  end.

(** The stream the copy reads: the file of the last [-f]. *)
Definition input_stream (fs : gmap string fs_entry) (es : list flag) : option stream :=
  match last_f es with
  | Some path => match fs !! path with Some (Readable f) => Some f | _ => None end
  | None => None
  end.

(** Whether [fopen] succeeds on a path. *)
Definition readable (fs : gmap string fs_entry) (path : string) : bool :=
  match fs !! path with Some (Readable _) => true | _ => false end.

(** The number a string of decimal digits denotes: each digit weighs ten
    times the digit to its right. *)
Fixpoint decimal_value (s : string) : Z :=
  match s with
  | EmptyString => 0
  | String c rest => digit_value c * 10 ^ Z.of_nat (String.length rest) + decimal_value rest
  end.

Fixpoint all_digits (s : string) : bool :=
  match s with
  | EmptyString => true
  | String c rest => isdigit c && all_digits rest
  end.

(** A numeric string: decimal digits, at least one. *)
Definition is_decimal (s : string) : bool :=
  match s with
  | EmptyString => false
  | String _ _ => all_digits s
  end.

(** A numeral as [printf] writes it: no leading zero. *)
Definition canonical (s : string) : bool :=
  match s with
  | String c rest => all_digits s && (negb (Ascii.eqb c "0") || String.eqb rest "")
  | EmptyString => false
  end.

(** A string [strtoul] converts nothing of: after white space and a sign
    there is no digit. *)
Definition no_conversion (s : string) : bool :=
  let s1 := skip_space s in
  let s2 := match s1 with
            | String c rest =>
                if Ascii.eqb c "-" || Ascii.eqb c "+" then rest else s1
            | EmptyString => s1
            end in
  match s2 with
  | String c _ => negb (isdigit c)
  | EmptyString => true
  end.

Fixpoint repeat_char (n : nat) (c : ascii) : string :=
  match n with
  | O => EmptyString
  | S n' => String c (repeat_char n' c)
  end.

(** A line of 79 bytes, line feed included, and one of 200 bytes. *)
Definition line79 : string := repeat_char 78 "x" +:+ lit "\n".
Definition line200 : string := repeat_char 199 "y" +:+ lit "\n".

Definition demo_fs : gmap string fs_entry :=
  {[ "a.txt" := Readable (Stream line79 false);
     "b.txt" := Readable (Stream (lit "first\nsecond\n") false);
     "secret" := Unreadable EACCES ]}.

(** A command line written flag by flag, each argument in an element of
    its own. *)
Fixpoint render (es : list flag) : list string :=
  match es with
  | [] => []
  | OptV :: es' => "-v" :: render es'
  | OptF path :: es' => "-f" :: path :: render es'
  | OptN value :: es' => "-n" :: value :: render es'
  | OptBad :: es' => "-h" :: render es'
  end.

(** The lines of a text, each with the line feed that ends it; the last
    one may lack it. *)
Fixpoint split_lines (s : string) : list string :=
  match s with
  | EmptyString => []
  | String c rest =>
      if Ascii.eqb c LF then String c "" :: split_lines rest
      else match split_lines rest with
           | [] => [String c ""]
           | l :: ls => String c l :: ls
           end
  end.

(** Data whose last line, if any, is ended by a line feed. *)
Fixpoint complete_lines (s : string) : bool :=
  match s with
  | EmptyString => true
  | String c EmptyString => Ascii.eqb c LF
  | String _ rest => complete_lines rest
  end.

(** The world in which [h] is the open stream [f]. *)
Definition with_stream (h : nat) (f : stream) (w : world) : world :=
  set_open (<[h := f]> (w_open w)) w.

(** The number [main] keeps of the [unsigned long] that [strtoul] returns
    for a string of digits denoting [v]: out of range the result is
    [ULONG_MAX], and the assignment to an [int] keeps the low 32 bits. *)
Definition stored_number (v : Z) : Z :=
  to_int (if v <=? ULONG_MAX then v else ULONG_MAX).

(** The number of [-f] flags. *)
Fixpoint count_f (es : list flag) : nat :=
  match es with
  | [] => O
  | OptF _ :: es' => S (count_f es')
  | _ :: es' => count_f es'
  end.

(** The events of [n] successful [-f] in a row: each opens a new stream,
    after closing the one before. *)
Fixpoint handle_events (n : nat) : list io_event :=
  match n with
  | O => []
  | S k => handle_events k ++ match k with O => [] | S j => [Closed j] end ++ [Opened k]
  end.

(** The stream [fp] holds after [n] successful [-f]. *)
Definition last_handle (n : nat) : option nat :=
  match n with O => None | S k => Some k end.

(** ** getopt reports the options of the command line *)

Section GetoptRefinement.

Variable o : ordering.
Variable argv : list string.

Lemma drop_lookup_cons (i : nat) :
  drop i argv = match argv !! i with Some a => a :: drop (S i) argv | None => [] end.
Proof.
  destruct (argv !! i) as [a|] eqn:E.
  - by apply drop_S.
  - apply drop_ge. by apply lookup_ge_None.
Qed.

Lemma short_option_reports (i : nat) (cs : string) (g : getopt_data) :
  cs ≠ "" → argv ≠ [] →
  remaining o argv g =
    (let '(os, p) := cluster cs in os ++ options o p (drop (S i) argv)) →
  ∀ r g' d, short_option argv OPTSTR 0 i cs = (r, g', d) → reports o argv g r g'.
Proof.
  intros Hcs Hargv Hrem r g' d.
  destruct cs as [|c rest]; [done|]. clear Hcs.
  unfold reports. rewrite Hrem. clear Hrem.
  unfold short_option, scanning. cbn [cluster].
  destruct (Ascii.eqb_spec c "v") as [->|Hv].
  { cbn. destruct rest as [|c' rest'].
    - intros [= <- <- <-]. cbn. done.
    - intros [= <- <- <-]. cbn [nextchar opterr optarg optind].
      unfold remaining; cbn [nextchar optind].
      destruct (cluster (String c' rest')) as [os p]. cbn. done. }
  destruct (Ascii.eqb_spec c "f") as [->|Hf].
  { cbn. destruct rest as [|c' rest'].
    - rewrite (drop_lookup_cons (S i)).
      destruct (argv !! S i) as [a|] eqn:E.
      + intros [= <- <- <-]. cbn. done.
      + intros [= <- <- <-]. cbn. split; [done|]. split; [done|]. split; [done|].
        unfold remaining; cbn. by rewrite (drop_lookup_cons (S i)), E.
    - intros [= <- <- <-]. cbn. done. }
  destruct (Ascii.eqb_spec c "n") as [->|Hn].
  { cbn. destruct rest as [|c' rest'].
    - rewrite (drop_lookup_cons (S i)).
      destruct (argv !! S i) as [a|] eqn:E.
      + intros [= <- <- <-]. cbn. done.
      + intros [= <- <- <-]. cbn. split; [done|]. split; [done|]. split; [done|].
        unfold remaining; cbn. by rewrite (drop_lookup_cons (S i)), E.
    - intros [= <- <- <-]. cbn. done. }
  (* any other character is reported as '?' *)
  assert (Hbad : short_option argv OPTSTR 0 i (String c rest) =
            (ch "?", GetoptData (match rest with EmptyString => S i | _ => i end) rest None 0,
             Some (invalid_option argv c))).
  { unfold short_option, OPTSTR. cbn [strchr].
    destruct (Ascii.eqb_spec "v" c) as [E|_]; [by subst|].
    destruct (Ascii.eqb_spec "f" c) as [E|_]; [by subst|].
    destruct (Ascii.eqb_spec ":" c) as [E|_].
    { subst c. reflexivity. }
    destruct (Ascii.eqb_spec "n" c) as [E|_]; [by subst|].
    reflexivity. }
  unfold short_option in Hbad. rewrite Hbad. intros [= <- <- <-].
  cbn [nextchar opterr optarg optind].
  destruct (cluster rest) as [os p] eqn:Ecl. cbn.
  split; [done|]. split; [done|]. split; [done|].
  unfold remaining; cbn [nextchar optind].
  destruct rest as [|c' rest'].
  - cbn in Ecl. by injection Ecl as <- <-.
  - rewrite Ecl. done.
Qed.

Lemma nonoption_not_dashdash (a : string) :
  NONOPTION_P a = true → String.eqb a "--" = false.
Proof. intros H. apply String.eqb_neq. by intros ->. Qed.

Lemma options_skip_nonoptions (l : list string) :
  options PERMUTE NoArg l = options PERMUTE NoArg (drop (count_nonoptions l) l).
Proof.
  induction l as [|a l IH]; [done|]. cbn [count_nonoptions].
  destruct (NONOPTION_P a) eqn:E; [|done].
  cbn [drop options]. by rewrite (nonoption_not_dashdash a E), E.
Qed.

Lemma skipped_is_option (l : list string) (a : string) (l' : list string) :
  drop (count_nonoptions l) l = a :: l' → NONOPTION_P a = false.
Proof.
  induction l as [|b l IH]; [done|]. cbn [count_nonoptions].
  destruct (NONOPTION_P b) eqn:E; [done|]. cbn. by intros [= <- <-].
Qed.

Lemma option_element_tail (a : string) :
  NONOPTION_P a = false → (match a with String _ cs => cs | EmptyString => "" end) ≠ "".
Proof.
  destruct a as [|c [|c' a']]; [done| |done].
  cbn. by destruct c as [[] [] [] [] [] [] [] []].
Qed.

(** At the start of an element: [l] is what is left of [argv] from index
    [i] on, after the non-options getopt skips. *)
Lemma next_element_reports (g : getopt_data) (i : nat) :
  argv ≠ [] →
  (∀ a l', drop i argv = a :: l' → o = PERMUTE → NONOPTION_P a = false) →
  remaining o argv g = options o NoArg (drop i argv) →
  ∀ r g' d,
    match argv !! i with
    | None => (EOF, GetoptData i "" None 0, None)
    | Some a =>
        if String.eqb a "--" then (EOF, GetoptData (length argv) "" None 0, None)
        else if NONOPTION_P a then (EOF, GetoptData i "" None 0, None)
        else short_option argv OPTSTR 0 i
               (match a with String _ cs => cs | EmptyString => EmptyString end)
    end = (r, g', d) →
    reports o argv g r g'.
Proof.
  intros Hargv Hopt Hrem r g' d.
  pose proof (drop_lookup_cons i) as Hdrop.
  destruct (argv !! i) as [a|] eqn:Ei.
  - destruct (String.eqb a "--") eqn:Edd.
    { intros [= <- <- <-]. unfold reports. rewrite Hrem, Hdrop. cbn [options].
      rewrite Edd. done. }
    destruct (NONOPTION_P a) eqn:Enon.
    { intros [= <- <- <-]. unfold reports. rewrite Hrem, Hdrop. cbn [options].
      rewrite Edd, Enon. destruct o; [done|]. by rewrite (Hopt _ _ Hdrop) in Enon. }
    apply short_option_reports; [by apply option_element_tail | done |].
    rewrite Hrem, Hdrop. cbn [options]. by rewrite Edd, Enon.
  - intros [= <- <- <-]. unfold reports. rewrite Hrem, Hdrop. done.
Qed.

Lemma getopt_scan_reports (g : getopt_data) (r : Z) (g' : getopt_data) (d : option string) :
  scanning argv g → getopt_scan o argv OPTSTR g = (r, g', d) → reports o argv g r g'.
Proof.
  intros [Herr Hnext]. unfold getopt_scan.
  destruct (decide (argv = [])) as [Hnil|Hargv].
  { rewrite Hnil. intros [= <- <- <-]. unfold reports, scanning.
    destruct (decide (nextchar g = "")) as [E|E]; [|by apply Hnext in E].
    unfold remaining. rewrite E. by destruct (optind g). }
  destruct argv as [|a0 argv'] eqn:Eargv; [done|]. rewrite <- Eargv in *.
  rewrite Herr.
  destruct (nextchar g) as [|c cs] eqn:Enc.
  - destruct o eqn:Eo; intros Hscan; rewrite <- Eo; revert Hscan.
    + apply next_element_reports; [done|intros; congruence|].
      unfold remaining. by rewrite Enc.
    + apply next_element_reports; [done| |].
      * intros a l'. rewrite <- drop_drop. intros H _. by eapply skipped_is_option.
      * unfold remaining. rewrite Enc, <- drop_drop, Eo. apply options_skip_nonoptions.
  - apply short_option_reports; [done|done|]. unfold remaining. by rewrite Enc.
Qed.

End GetoptRefinement.

(** ** One turn of the option loop *)

Lemma strtoul_spec (nptr : string) (w : world) :
  ∃ w', strtoul nptr w = Ret (strtoul_value nptr) w' ∧
        w_log w' = w_log w ∧ w_open w' = w_open w ∧ w_next w' = w_next w ∧ same_env w w'.
Proof.
  unfold strtoul, strtoul_value.
  destruct (strtoul_parse nptr) as [value []]; eexists; (split; [reflexivity|done]).
Qed.

(** Selects the branch of a [switch] on a character constant. *)
Ltac switch_case :=
  unfold main_switch, opt_code, opt_arg;
  repeat match goal with
         | |- context [ch ?a =? ch ?b] =>
             let v := eval vm_compute in (ch a =? ch b) in
             change (ch a =? ch b) with v
         end;
  cbv iota.

Lemma switch_v (argv : list string) (l : locals) (w : world) :
  main_switch argv (opt_code OptV) (opt_arg OptV) l w =
    Ret (Locals (to_int (verbose l + 1)) (number l) (fp l)) w.
Proof. by switch_case. Qed.

Lemma switch_n (argv : list string) (value : string) (l : locals) (w : world) :
  ∃ w', main_switch argv (opt_code (OptN value)) (opt_arg (OptN value)) l w =
          Ret (Locals (verbose l) (to_int (strtoul_value value)) (fp l)) w' ∧
        w_log w' = w_log w ∧ w_open w' = w_open w ∧ w_next w' = w_next w ∧ same_env w w'.
Proof.
  destruct (strtoul_spec value w) as (w' & E & H).
  exists w'. split; [|done].
  switch_case. unfold mbind, M_bind. by rewrite E.
Qed.

Lemma switch_f (argv : list string) (path : string) (l : locals) (w : world) :
  main_switch argv (opt_code (OptF path)) (opt_arg (OptF path)) l w =
    let w1 := after_close l w in
    match w_fs w !! path with
    | Some (Readable f) =>
        Ret (Locals (verbose l) (number l) (Some (w_next w)))
            (log_event (Opened (w_next w))
               (set_next (S (w_next w)) (set_open (<[w_next w := f]> (w_open w1)) w1)))
    | Some (Unreadable e) =>
        Exit EXIT_FAILURE
          (log_event (Wrote Stderr ("-f: error opening file: " +:+ strerror e +:+ lit "\n"))
             (set_errno e w1))
    | None =>
        Exit EXIT_FAILURE
          (log_event (Wrote Stderr ("-f: error opening file: " +:+ strerror ENOENT +:+ lit "\n"))
             (set_errno ENOENT w1))
    end.
Proof.
  switch_case. unfold after_close, mbind, M_bind, fclose, fopen, perror, mret, M_ret.
  destruct (fp l) as [h|]; cbn;
    (destruct (w_fs w !! path) as [[f|e]|]; reflexivity).
Qed.

Lemma switch_bad (argv0 : string) (argv' : list string) (l : locals) (w : world) :
  main_switch (argv0 :: argv') (opt_code OptBad) (opt_arg OptBad) l w =
    Exit EXIT_FAILURE
      (log_event (Wrote Stderr (format (lit "usage: %s [-v]|[-f filename][-n integer]\n")
                                  [ArgStr (basename argv0)])) w).
Proof. by switch_case. Qed.

Lemma switch_env (argv : list string) (e : flag) (l l' : locals) (w w' : world) :
  main_switch argv (opt_code e) (opt_arg e) l w = Ret l' w' → same_env w w'.
Proof.
  destruct e as [|path|value|].
  - rewrite switch_v. by intros [= <- <-].
  - rewrite switch_f. cbn zeta.
    destruct (w_fs w !! path) as [[f|err]|]; [|done|done].
    intros [= <- <-]. unfold after_close. by destruct (fp l).
  - destruct (switch_n argv value l w) as (w1 & -> & _ & _ & _ & H). by intros [= <- <-].
  - destruct argv as [|argv0 argv']; [by switch_case|]. by rewrite switch_bad.
Qed.

(** ** The option loop runs [main_switch] over the options of the command line *)

Lemma getopt_reports (argv : list string) (g : getopt_data) (w : world) :
  scanning argv g →
  ∃ r g', getopt argv OPTSTR g w = Ret (r, g') w ∧ reports (w_ordering w) argv g r g'.
Proof.
  intros Hg. unfold getopt.
  destruct (getopt_scan (w_ordering w) argv OPTSTR g) as [[r g'] d] eqn:E.
  exists r, g'. split; [|by eapply getopt_scan_reports].
  destruct Hg as [-> _]. by destruct d.
Qed.

Lemma opt_code_not_EOF (e : flag) : (opt_code e =? EOF) = false.
Proof. by destruct e. Qed.

Lemma main_loop_process (fuel : nat) (argv : list string) (g : getopt_data)
    (l : locals) (w : world) :
  scanning argv g →
  (length (remaining (w_ordering w) argv g) < fuel)%nat →
  main_loop fuel argv g l w = process argv (remaining (w_ordering w) argv g) l w.
Proof.
  revert g l w. induction fuel as [|fuel IH]; intros g l w Hg Hfuel; [lia|].
  destruct (getopt_reports argv g w Hg) as (r & g' & Hcall & Hg' & Hrep).
  cbn [main_loop]. unfold mbind at 1, M_bind at 1. rewrite Hcall.
  destruct (remaining (w_ordering w) argv g) as [|e es] eqn:Erem.
  - by rewrite Hrep.
  - destruct Hrep as (-> & -> & Hes). rewrite opt_code_not_EOF.
    cbn [process]. unfold mbind, M_bind.
    destruct (main_switch argv (opt_code e) (opt_arg e) l w) as [l' w'| |] eqn:Esw; [|done|done].
    apply switch_env in Esw as (_ & _ & Hord).
    rewrite <- Hord in Hes. rewrite IH, Hes; [done|done|].
    rewrite Hes. cbn in Hfuel. lia.
Qed.

Lemma cluster_length (cs : string) :
  (length (cluster cs).1 + (match (cluster cs).2 with NoArg => 0 | _ => 1 end)
   ≤ String.length cs)%nat.
Proof.
  induction cs as [|c rest IH]; [done|]. cbn [cluster String.length].
  destruct (Ascii.eqb c "v").
  { destruct (cluster rest) as [os p]. cbn in *. lia. }
  destruct (Ascii.eqb c "f"); [destruct rest; cbn; lia|].
  destruct (Ascii.eqb c "n"); [destruct rest; cbn; lia|].
  destruct (cluster rest) as [os p]. cbn in *. lia.
Qed.

Lemma options_length (o : ordering) (p : pending) (args : list string) :
  (length (options o p args)
   ≤ sum_list (String.length <$> args) + (match p with NoArg => 0 | _ => 1 end))%nat.
Proof.
  revert p. induction args as [|a args IH]; intros p; [by destruct p|].
  pose proof (IH NoArg) as IH0. cbn [options fmap list_fmap sum_list sum_list_with].
  destruct p.
  - destruct (String.eqb a "--"); [cbn; lia|].
    destruct (NONOPTION_P a); [destruct o; cbn in *; lia|].
    destruct a as [|c cs]; [cbn in *; lia|].
    pose proof (cluster_length cs) as Hcl. specialize (IH (cluster cs).2).
    destruct (cluster cs) as [os p']. rewrite length_app. cbn in *. lia.
  - cbn in *. lia.
  - cbn in *. lia.
Qed.

Lemma main_loop_command_line (argv : list string) (l : locals) (w : world) :
  main_loop (main_fuel argv) argv (set_opterr 0 getopt_init) l w =
    process argv (command_line (w_ordering w) argv) l w.
Proof.
  assert (Hrem : ∀ o, remaining o argv (set_opterr 0 getopt_init) = command_line o argv).
  { intros o. unfold remaining, command_line. cbn. by destruct argv. }
  rewrite main_loop_process, Hrem; [done|done|].
  rewrite Hrem. unfold command_line, main_fuel.
  pose proof (options_length (w_ordering w) NoArg (tail argv)).
  destruct argv; cbn in *; lia.
Qed.

(** ** Strings and logs *)

Module StringFacts.

Lemma sapp_nil_l (s : string) : "" +:+ s = s.
Proof. reflexivity. Qed.

Lemma sapp_cons (c : ascii) (s t : string) : String c s +:+ t = String c (s +:+ t).
Proof. reflexivity. Qed.

Lemma sapp_nil_r (s : string) : s +:+ "" = s.
Proof. induction s as [|c s IH]; [done|]. by rewrite sapp_cons, IH. Qed.

Lemma sapp_assoc (s t u : string) : (s +:+ t) +:+ u = s +:+ (t +:+ u).
Proof. induction s as [|c s IH]; [done|]. by rewrite !sapp_cons, IH. Qed.

Lemma sapp_length (s t : string) :
  String.length (s +:+ t) = (String.length s + String.length t)%nat.
Proof. induction s as [|c s IH]; [done|]. rewrite sapp_cons. cbn. by rewrite IH. Qed.

Lemma c_str_text (s : string) : is_text s = true → c_str s = s.
Proof.
  induction s as [|c s IH]; [done|]. cbn.
  destruct (Ascii.eqb c NUL); [done|]. cbn. intros H. by rewrite IH.
Qed.

Lemma is_text_app (s t : string) : is_text (s +:+ t) = is_text s && is_text t.
Proof.
  induction s as [|c s IH]; [done|]. rewrite sapp_cons. cbn.
  rewrite IH. by destruct (Ascii.eqb c NUL).
Qed.

Lemma written_app (o : ostream) (l1 l2 : list io_event) :
  written o (l1 ++ l2) = written o l1 +:+ written o l2.
Proof.
  induction l1 as [|e l1 IH]; [done|].
  destruct e as [h|h|[] s]; destruct o; cbn; by rewrite ?IH, ?sapp_assoc.
Qed.

Lemma written_wrote (o : ostream) (l : list string) :
  written o (Wrote o <$> l) = concat l.
Proof. induction l as [|s l IH]; [done|]. destruct o; cbn; by rewrite IH. Qed.

Lemma written_other (l : list string) :
  written Stderr (Wrote Stdout <$> l) = "" ∧ written Stdout (Wrote Stderr <$> l) = "".
Proof. induction l as [|s l [IH1 IH2]]; [done|]. by cbn. Qed.

End StringFacts.
Import StringFacts.

(** ** The line copier *)

Lemma read_line_spec (k : nat) (data line rest : string) (short : bool) :
  read_line k data = (line, rest, short) →
  data = line +:+ rest ∧ (String.length line ≤ k)%nat ∧
  (short = true → rest = "") ∧ (line = "" → k = 0%nat ∨ data = "").
Proof.
  revert data line rest short.
  induction k as [|k IH]; intros data line rest short; cbn [read_line].
  { intros [= <- <- <-]. repeat split; auto; lia. }
  destruct data as [|c data]; [intros [= <- <- <-]; repeat split; auto; cbn; lia|].
  destruct (Ascii.eqb c LF).
  { intros [= <- <- <-]. repeat split; try done. cbn; lia. }
  destruct (read_line k data) as [[line' rest'] short'] eqn:E.
  intros [= <- <- <-]. destruct (IH _ _ _ _ E) as (-> & Hlen & Hshort & _).
  repeat split; try done. cbn; lia.
Qed.

Lemma read_line_ends_at_LF (k : nat) (data : string) :
  ends_at_LF (read_line k data).1.1 = true.
Proof.
  revert data. induction k as [|k IH]; intros data; [done|]. cbn [read_line].
  destruct data as [|c data]; [done|].
  destruct (Ascii.eqb c LF) eqn:Ec; [done|].
  specialize (IH data). destruct (read_line k data) as [[line rest] short].
  cbn in *. rewrite Ec, IH. by destruct line.
Qed.

Lemma dump_loop_reads (fuel : nat) (h : nat) (output : ostream) (f : stream) (w : world) :
  w_open w !! h = Some f →
  (String.length (s_data f) < fuel)%nat →
  ∃ w', dump_loop fuel h output w = Ret tt w' ∧
        w_log w' = w_log w ++
          (if writable output w then Wrote output <$> (c_str <$> reads fuel f) else []) ∧
        (s_fail f = false → w_errno w' = w_errno w) ∧ same_env w w'.
Proof.
  revert f w. induction fuel as [|fuel IH]; intros f w Hopen Hfuel; [lia|].
  cbn [dump_loop reads]. unfold mbind at 1, M_bind at 1, fgets. rewrite Hopen.
  change (sizeof_buf - 1 - 1)%nat with (sizeof_buf - 2)%nat.
  destruct (read_line (sizeof_buf - 2) (s_data f)) as [[line rest] short] eqn:Erd.
  destruct (read_line_spec _ _ _ _ _ Erd) as (Hdata & Hlen & Hshort & Hnil).
  destruct (short && s_fail f) eqn:Efail.
  { eexists. split; [reflexivity|]. cbn.
    split; [destruct (writable output w); by rewrite app_nil_r|].
    split; [|done]. intros Hok. by rewrite Hok, andb_false_r in Efail. }
  destruct line as [|c line].
  { eexists. split; [reflexivity|]. cbn. destruct (writable output w); by rewrite app_nil_r. }
  unfold mbind, M_bind, fputs.
  set (w1 := set_open _ w).
  assert (Hw1 : writable output w1 = writable output w) by by destruct output.
  rewrite Hw1.
  assert (Hrest : (String.length rest < fuel)%nat).
  { rewrite Hdata, sapp_length in Hfuel. cbn in Hfuel. lia. }
  destruct (writable output w) eqn:Hwr.
  - edestruct (IH (Stream rest (s_fail f)) (log_event (Wrote output (c_str (String c line))) w1))
      as (w' & -> & Hlog & Herr & Henv); [by apply lookup_insert_eq|done|].
    exists w'. split; [done|]. rewrite Hlog.
    assert (Hwr' : writable output
              (log_event (Wrote output (c_str (String c line))) w1) = true)
      by (by destruct output).
    rewrite Hwr'. cbn [w_log log_event fmap list_fmap]. rewrite <- app_assoc. done.
  - edestruct (IH (Stream rest (s_fail f)) w1) as (w' & -> & Hlog & Herr & Henv);
      [by apply lookup_insert_eq|done|].
    exists w'. split; [done|]. by rewrite Hlog, Hw1.
Qed.

(** ** The option loop on an accepted command line *)

Module CIntFacts.

Lemma to_int_small (z : Z) : INT_MIN ≤ z ≤ INT_MAX → to_int z = z.
Proof. unfold to_int, INT_MIN, INT_MAX. intros H. rewrite Z.mod_small; lia. Qed.

Lemma to_int_range (z : Z) : INT_MIN ≤ to_int z ≤ INT_MAX.
Proof.
  unfold to_int, INT_MIN, INT_MAX.
  pose proof (Z.mod_pos_bound (z + 2147483648) 4294967296). lia.
Qed.

Lemma to_int_add_l (a b : Z) : to_int (to_int a + b) = to_int (a + b).
Proof.
  unfold to_int.
  replace ((a + 2147483648) mod 4294967296 - 2147483648 + b + 2147483648)
    with ((a + 2147483648) mod 4294967296 + b) by lia.
  rewrite Zplus_mod_idemp_l. f_equal. f_equal. lia.
Qed.

End CIntFacts.
Import CIntFacts.

Lemma written_quiet (o : ostream) (evs : list io_event) : quiet evs → written o evs = "".
Proof.
  induction 1 as [|e evs He _ IH]; [done|]. by destruct e as [h|h|[] s], o.
Qed.

Lemma quiet_app (evs1 evs2 : list io_event) : quiet evs1 → quiet evs2 → quiet (evs1 ++ evs2).
Proof. apply Forall_app_2. Qed.

Lemma process_app (argv : list string) (es1 es2 : list flag) (l : locals) (w : world) :
  process argv (es1 ++ es2) l w =
    match process argv es1 l w with
    | Ret l' w' => process argv es2 l' w'
    | Exit s w' => Exit s w'
    | Fault f => Fault f
    end.
Proof.
  revert l w. induction es1 as [|e es1 IH]; intros l w; [done|].
  cbn [process app]. unfold mbind, M_bind.
  destruct (main_switch argv (opt_code e) (opt_arg e) l w); [apply IH|done|done].
Qed.

Lemma last_f_cons (e : flag) (es : list flag) :
  last_f (e :: es) =
    match last_f es with
    | Some p => Some p
    | None => match e with OptF p => Some p | _ => None end
    end.
Proof. destruct e; cbn; by destruct (last_f es). Qed.

Lemma last_n_cons (e : flag) (es : list flag) :
  last_n (e :: es) =
    match last_n es with
    | Some s => Some s
    | None => match e with OptN s => Some s | _ => None end
    end.
Proof. destruct e; cbn; by destruct (last_n es). Qed.

Lemma process_accepted (argv : list string) (es : list flag) (l : locals) (w : world) :
  accepted (w_fs w) es = true →
  INT_MIN ≤ verbose l ≤ INT_MAX →
  ∃ l' w', process argv es l w = Ret l' w' ∧ parsed es l w l' w'.
Proof.
  revert l w. induction es as [|e es IH]; intros l w Hacc Hv.
  { exists l. exists w. split; [done|]. split; cbn; try done.
    - change (Z.of_nat 0) with 0. rewrite Z.add_0_r. symmetry. by apply to_int_small.
    - exists []. split; [by rewrite app_nil_r|constructor]. }
  cbn [process]. unfold mbind, M_bind.
  destruct e as [|path|value|]; cbn [accepted] in Hacc; [| | |done].
  - (* -v *)
    rewrite switch_v.
    destruct (IH (Locals (to_int (verbose l + 1)) (number l) (fp l)) w Hacc)
      as (l' & w' & -> & [Hverb Hnum Hin Hlog Henv]); [apply to_int_range|].
    exists l'. exists w'. split; [done|]. split; try done.
    rewrite Hverb. cbn [verbose count_v]. rewrite to_int_add_l. f_equal. lia.
  - (* -f path *)
    rewrite switch_f. cbn zeta.
    destruct (w_fs w !! path) as [[f|err]|] eqn:Efs; [|done|done].
    set (w1 := log_event _ _).
    assert (Hw1 : same_env w w1) by (unfold w1, after_close; by destruct (fp l)).
    assert (Hacc1 : accepted (w_fs w1) es = true) by (destruct Hw1 as (-> & _); done).
    destruct (IH (Locals (verbose l) (number l) (Some (w_next w))) w1 Hacc1 Hv)
      as (l' & w' & -> & [Hverb Hnum Hin Hlog Henv]).
    exists l'. exists w'. split; [done|].
    split.
    + rewrite Hverb. done.
    + rewrite Hnum. unfold number_after. by rewrite last_n_cons; destruct (last_n es).
    + rewrite last_f_cons. destruct (last_f es) as [p|].
      * destruct Hin as (h & f' & ? & Hp & ?). exists h. exists f'.
        destruct Hw1 as (Hfs & _). by rewrite <- Hfs.
      * destruct Hin as (-> & -> & _). exists (w_next w). exists f.
        split; [done|]. split; [done|]. apply lookup_insert_eq.
    + destruct Hlog as (evs & -> & Hq). unfold w1, after_close.
      destruct (fp l) as [h|]; cbn [w_log log_event set_next set_open].
      * exists ([Closed h; Opened (w_next w)] ++ evs).
        split; [by rewrite <- !app_assoc|]. apply quiet_app; [|done]. by repeat constructor.
      * exists ([Opened (w_next w)] ++ evs).
        split; [by rewrite <- !app_assoc|]. apply quiet_app; [|done]. by repeat constructor.
    + destruct Hw1 as (? & ? & ?), Henv as (? & ? & ?). repeat split; congruence.
  - (* -n value *)
    destruct (switch_n argv value l w) as (w1 & -> & Hl1 & Ho1 & Hn1 & Hw1).
    assert (Hacc1 : accepted (w_fs w1) es = true) by (destruct Hw1 as (-> & _); done).
    destruct (IH (Locals (verbose l) (to_int (strtoul_value value)) (fp l)) w1 Hacc1 Hv)
      as (l' & w' & -> & [Hverb Hnum Hin Hlog Henv]).
    exists l'. exists w'. split; [done|]. split.
    + rewrite Hverb. done.
    + rewrite Hnum. unfold number_after. by rewrite last_n_cons; destruct (last_n es).
    + rewrite last_f_cons. destruct (last_f es) as [p|].
      * destruct Hin as (h & f' & ? & Hp & ?). exists h. exists f'.
        destruct Hw1 as (Hfs & _). by rewrite <- Hfs.
      * by rewrite <- Ho1, <- Hl1.
    + by rewrite <- Hl1.
    + destruct Hw1 as (? & ? & ?), Henv as (? & ? & ?). repeat split; congruence.
Qed.

(** ** What the reads of the copy loop return *)

Lemma reads_bounds (fuel : nat) (f : stream) :
  Forall (λ s, (0 < String.length s ≤ sizeof_buf - 2)%nat ∧ ends_at_LF s = true)
    (reads fuel f).
Proof.
  revert f. induction fuel as [|fuel IH]; intros f; [constructor|]. cbn [reads].
  pose proof (read_line_ends_at_LF (sizeof_buf - 2) (s_data f)) as Hlf.
  destruct (read_line (sizeof_buf - 2) (s_data f)) as [[line rest] short] eqn:Erd.
  destruct (read_line_spec _ _ _ _ _ Erd) as (_ & Hlen & _).
  destruct (short && s_fail f); [constructor|].
  destruct line as [|c line]; [constructor|].
  constructor; [|apply IH]. split; [|done]. cbn in *. lia.
Qed.

Lemma reads_concat (fuel : nat) (f : stream) :
  s_fail f = false → (String.length (s_data f) < fuel)%nat →
  concat (reads fuel f) = s_data f.
Proof.
  revert f. induction fuel as [|fuel IH]; intros f Hok Hfuel; [lia|]. cbn [reads].
  destruct (read_line (sizeof_buf - 2) (s_data f)) as [[line rest] short] eqn:Erd.
  destruct (read_line_spec _ _ _ _ _ Erd) as (Hdata & Hlen & Hshort & Hnil).
  rewrite Hok, andb_false_r.
  destruct line as [|c line].
  - destruct (Hnil eq_refl) as [?|E]; [done|]. by rewrite E.
  - cbn [concat]. rewrite IH; [done|done|]. cbn [s_data].
    rewrite Hdata, sapp_length in Hfuel. cbn in Hfuel. lia.
Qed.

Lemma reads_text (fuel : nat) (f : stream) :
  is_text (s_data f) = true → c_str <$> reads fuel f = reads fuel f.
Proof.
  revert f. induction fuel as [|fuel IH]; intros f Htext; [done|]. cbn [reads].
  destruct (read_line (sizeof_buf - 2) (s_data f)) as [[line rest] short] eqn:Erd.
  destruct (read_line_spec _ _ _ _ _ Erd) as (Hdata & _).
  rewrite Hdata, is_text_app in Htext. apply andb_true_iff in Htext as [Hl Hr].
  destruct (short && s_fail f); [done|].
  destruct line as [|c line]; [done|].
  cbn [fmap list_fmap]. rewrite (c_str_text _ Hl). f_equal. by apply IH.
Qed.

Lemma concat_length_bound (k : nat) (l : list string) :
  Forall (λ s, (String.length s ≤ k)%nat) l →
  (String.length (concat l) ≤ length l * k)%nat.
Proof.
  induction 1 as [|s l Hs _ IH]; [done|]. cbn [concat length]. rewrite sapp_length. lia.
Qed.

(** Data longer than one read can return takes several reads. *)
Lemma reads_split (fuel : nat) (f : stream) :
  s_fail f = false → (String.length (s_data f) < fuel)%nat →
  (sizeof_buf - 2 < String.length (s_data f))%nat →
  (2 ≤ length (reads fuel f))%nat.
Proof.
  intros Hok Hfuel Hlong.
  pose proof (reads_concat fuel f Hok Hfuel) as Hcat.
  pose proof (concat_length_bound (sizeof_buf - 2) (reads fuel f)) as Hbound.
  rewrite Hcat in Hbound.
  assert (String.length (s_data f) ≤ length (reads fuel f) * (sizeof_buf - 2))%nat.
  { apply Hbound. eapply Forall_impl; [apply reads_bounds|]. cbn. lia. }
  destruct (reads fuel f) as [|? [|? ?]]; cbn in *; lia.
Qed.

Lemma dump_file_null (output : ostream) (w : world) :
  dump_file None output w = Ret (-1) (set_errno EINVAL w).
Proof. reflexivity. Qed.

Lemma dump_file_open (h : nat) (output : ostream) (f : stream) (w : world) :
  w_open w !! h = Some f →
  ∃ w', dump_file (Some h) output w = Ret 0 w' ∧
        w_log w' = w_log w ++ (if writable output w then Wrote output <$> copied f else []) ∧
        (s_fail f = false → w_errno w' = w_errno w) ∧ same_env w w'.
Proof.
  intros Hopen. unfold dump_file, mbind, M_bind, gets, dump_fuel. rewrite Hopen.
  destruct (dump_loop_reads (S (String.length (s_data f))) h output f w Hopen)
    as (w' & -> & H); [lia|].
  by exists w'.
Qed.

Lemma dump_file_returns (filep : option nat) (output : ostream) (w : world) :
  ∃ w', dump_file filep output w = Ret (match filep with Some _ => 0 | None => -1 end) w'.
Proof.
  destruct filep as [h|]; [|by eexists].
  destruct (w_open w !! h) as [f|] eqn:E.
  - destruct (dump_file_open h output f w E) as (w' & -> & _). by exists w'.
  - unfold dump_file, mbind, M_bind, gets, dump_fuel. rewrite E.
    cbn [dump_loop]. unfold mbind, M_bind, fgets. rewrite E. by eexists.
Qed.

(** The copy opens and closes nothing. *)
Lemma dump_loop_dom (fuel : nat) (h : nat) (output : ostream) (w : world) :
  match dump_loop fuel h output w with
  | Ret _ w' | Exit _ w' => dom (w_open w') = dom (w_open w)
  | Fault _ => True
  end.
Proof.
  revert w. induction fuel as [|fuel IH]; intros w; [done|].
  cbn [dump_loop]. unfold mbind at 1, M_bind at 1, fgets.
  destruct (w_open w !! h) as [f|] eqn:Hopen; [|done].
  destruct (read_line (sizeof_buf - 1 - 1) (s_data f)) as [[line rest] short].
  assert (Hdom : dom (<[h := Stream rest (s_fail f)]> (w_open w)) = dom (w_open w))
    by (by apply dom_insert_lookup_L).
  destruct (short && s_fail f); [done|].
  destruct line as [|c line]; [done|].
  unfold mbind, M_bind, fputs.
  set (w1 := set_open _ w).
  destruct (writable output w1).
  - specialize (IH (log_event (Wrote output (c_str (String c line))) w1)).
    destruct (dump_loop fuel h output _); [| |done]; by rewrite IH.
  - specialize (IH w1). destruct (dump_loop fuel h output _); [| |done]; by rewrite IH.
Qed.

Lemma dump_file_dom (filep : option nat) (output : ostream) (w : world) :
  match dump_file filep output w with
  | Ret _ w' | Exit _ w' => dom (w_open w') = dom (w_open w)
  | Fault _ => True
  end.
Proof.
  destruct filep as [h|]; [|done]. unfold dump_file, mbind, M_bind, gets.
  pose proof (dump_loop_dom (dump_fuel h w) h output w) as H.
  by destruct (dump_loop _ h output w).
Qed.

(** ** The rest of [main], after the option loop *)

Lemma main_process (argv : list string) (w : world) :
  main argv w =
    match process argv (command_line (w_ordering w) argv) (Locals 0 0 None) w with
    | Ret l w' => finish l w'
    | Exit s w' => Exit s w'
    | Fault f => Fault f
    end.
Proof.
  unfold main. cbv zeta. unfold mbind at 1, M_bind at 1.
  by rewrite main_loop_command_line.
Qed.

Lemma printf_verbose (v : Z) (w : world) :
  ∃ n, printf "verbose = %d\n" [ArgInt v] w = Ret n (put Stdout (verbose_line v) w).
Proof. unfold printf, fprintf, put. destruct (writable Stdout w); by eexists. Qed.

Lemma printf_number (v : Z) (w : world) :
  ∃ n, printf "number  = %d\n" [ArgInt v] w = Ret n (put Stdout (number_line v) w).
Proof. unfold printf, fprintf, put. destruct (writable Stdout w); by eexists. Qed.

Lemma finish_summary (l : locals) (w : world) :
  ∃ w1, finish l w =
          match dump_file (fp l) Stdout w1 with
          | Ret r w' =>
              if r <? 0
              then Exit EXIT_FAILURE
                     (log_event (Wrote Stderr ("dump_file: " +:+ strerror (w_errno w') +:+ lit "\n")) w')
              else Ret EXIT_SUCCESS w'
          | Exit s w' => Exit s w'
          | Fault f => Fault f
          end ∧
        w_log w1 = w_log w ++ (if w_stdout_ok w then summary (verbose l) (number l) else []) ∧
        w_open w1 = w_open w ∧ same_env w w1.
Proof.
  destruct (printf_verbose (verbose l) w) as (n1 & E1).
  destruct (printf_number (number l) (put Stdout (verbose_line (verbose l)) w)) as (n2 & E2).
  exists (put Stdout (number_line (number l)) (put Stdout (verbose_line (verbose l)) w)).
  split.
  - unfold finish, mbind, M_bind. rewrite E1, E2.
    destruct (dump_file _ _ _) as [r w'| |]; [|done|done]. by destruct (r <? 0).
  - unfold put. cbn [writable]. destruct (w_stdout_ok w) eqn:Hok; cbn; rewrite ?Hok; cbn.
    + by rewrite <- app_assoc.
    + by rewrite app_nil_r.
Qed.

Lemma finish_null (l : locals) (w : world) :
  fp l = None →
  ∃ w', finish l w = Exit EXIT_FAILURE w' ∧
        w_log w' = w_log w ++
          (if w_stdout_ok w then summary (verbose l) (number l) else []) ++
          [Wrote Stderr (lit "dump_file: Invalid argument\n")].
Proof.
  intros Hfp. destruct (finish_summary l w) as (w1 & -> & Hlog & _).
  rewrite Hfp, dump_file_null. cbn. eexists. split; [reflexivity|].
  cbn. by rewrite Hlog, <- app_assoc.
Qed.

Lemma finish_open (l : locals) (w : world) (h : nat) (f : stream) :
  fp l = Some h → w_open w !! h = Some f →
  ∃ w', finish l w = Ret EXIT_SUCCESS w' ∧
        w_log w' = w_log w ++
          (if w_stdout_ok w
           then summary (verbose l) (number l) ++ (Wrote Stdout <$> copied f)
           else []).
Proof.
  intros Hfp Hopen. destruct (finish_summary l w) as (w1 & -> & Hlog & Hop & Hfs & Hok & _).
  rewrite Hfp. rewrite <- Hop in Hopen.
  destruct (dump_file_open h Stdout f w1 Hopen) as (w' & -> & Hlog' & _).
  cbn. exists w'. split; [done|]. rewrite Hlog', Hlog. cbn [writable]. rewrite Hok.
  destruct (w_stdout_ok w); by rewrite <- app_assoc.
Qed.

Lemma finish_dom (l : locals) (w : world) :
  match finish l w with
  | Ret _ w' | Exit _ w' => dom (w_open w') = dom (w_open w)
  | Fault _ => True
  end.
Proof.
  destruct (finish_summary l w) as (w1 & -> & _ & Hopen & _).
  pose proof (dump_file_dom (fp l) Stdout w1) as H. rewrite Hopen in H.
  destruct (dump_file (fp l) Stdout w1) as [r w'| |]; [|done..]. by destruct (r <? 0).
Qed.

(** ** The option loop on a rejected command line *)

Lemma rejected_split (fs : gmap string fs_entry) (argv0 : string) (es : list flag) :
  accepted fs es = false →
  ∃ pre e post msg,
    es = pre ++ e :: post ∧ accepted fs pre = true ∧ diagnosis fs argv0 e = Some msg.
Proof.
  induction es as [|e es IH]; [done|]. intros Hacc.
  destruct (diagnosis fs argv0 e) as [msg|] eqn:Ed.
  { exists []. exists e. exists es. by exists msg. }
  assert (Hes : accepted fs es = false).
  { destruct e as [|path| |]; cbn in *; try done. by destruct (fs !! path) as [[]|]. }
  destruct (IH Hes) as (pre & e' & post & msg & -> & Hpre & Hd).
  exists (e :: pre). exists e'. exists post. exists msg. split; [done|]. split; [|done].
  destruct e as [|path| |]; cbn in *; try done. by destruct (fs !! path) as [[]|].
Qed.

Lemma process_rejected (argv0 : string) (argv' : list string) (pre : list flag) (e : flag)
    (post : list flag) (msg : string) (l : locals) (w : world) :
  accepted (w_fs w) pre = true →
  diagnosis (w_fs w) argv0 e = Some msg →
  INT_MIN ≤ verbose l ≤ INT_MAX →
  ∃ w' evs, process (argv0 :: argv') (pre ++ e :: post) l w = Exit EXIT_FAILURE w' ∧
            w_log w' = w_log w ++ evs ++ [Wrote Stderr msg] ∧ quiet evs.
Proof.
  intros Hpre Hd Hv. rewrite process_app.
  destruct (process_accepted (argv0 :: argv') pre l w Hpre Hv)
    as (l1 & w1 & -> & [_ _ _ (evs & Hlog & Hq) (Hfs & _)]).
  cbn [process]. unfold mbind, M_bind.
  destruct e as [|path| |]; cbn [diagnosis] in Hd; [done| |done|].
  - rewrite switch_f. cbn zeta. rewrite Hfs. unfold open_errno in Hd.
    destruct (w_fs w !! path) as [[f|err]|]; [done| |]; injection Hd as <-.
    + eexists. exists (evs ++ match fp l1 with Some h => [Closed h] | None => [] end).
      split; [done|]. unfold after_close.
      destruct (fp l1) as [h|]; cbn [w_log log_event set_errno set_open]; rewrite Hlog.
      * split; [by rewrite <- !app_assoc|]. apply quiet_app; [done|by repeat constructor].
      * split; [by rewrite app_nil_r, <- !app_assoc|]. by rewrite app_nil_r.
    + eexists. exists (evs ++ match fp l1 with Some h => [Closed h] | None => [] end).
      split; [done|]. unfold after_close.
      destruct (fp l1) as [h|]; cbn [w_log log_event set_errno set_open]; rewrite Hlog.
      * split; [by rewrite <- !app_assoc|]. apply quiet_app; [done|by repeat constructor].
      * split; [by rewrite app_nil_r, <- !app_assoc|]. by rewrite app_nil_r.
  - injection Hd as <-. rewrite switch_bad. eexists. exists evs. split; [done|].
    cbn [w_log log_event]. rewrite Hlog. split; [by rewrite <- !app_assoc|done].
Qed.

(** ** Open streams *)

Section OpenStreams.

Local Open Scope nat_scope.

Lemma live_snoc (log : list io_event) (e : io_event) :
  live (log ++ [e]) = live_step (live log) e.
Proof. apply foldl_snoc. Qed.

Lemma prefix_snoc_inv {A} (p l : list A) (x : A) :
  p `prefix_of` l ++ [x] → p `prefix_of` l ∨ p = l ++ [x].
Proof.
  intros [k Hk]. destruct k as [|y k _] using rev_ind.
  - right. by rewrite app_nil_r in Hk.
  - left. rewrite app_assoc in Hk. apply app_inj_tail in Hk as [-> _]. by exists k.
Qed.

Lemma tidy_nil : tidy [].
Proof. intros p ->%prefix_nil_inv. unfold live. cbn. rewrite size_empty. lia. Qed.

Lemma tidy_snoc (log : list io_event) (e : io_event) :
  tidy log → size (live (log ++ [e])) ≤ 1 → tidy (log ++ [e]).
Proof. intros Ht He p [Hp| ->]%prefix_snoc_inv; [by apply Ht|done]. Qed.

Lemma tidy_now (log : list io_event) : tidy log → size (live log) ≤ 1.
Proof. intros Ht. by apply Ht. Qed.

Lemma tidy_wrote (log : list io_event) (o : ostream) (s : string) :
  tidy log → tidy (log ++ [Wrote o s]).
Proof. intros Ht. apply tidy_snoc; [done|]. rewrite live_snoc. by apply tidy_now. Qed.

Lemma live_writes (log : list io_event) (evs : list io_event) :
  Forall (λ e, match e with Wrote _ _ => True | _ => False end) evs →
  live (log ++ evs) = live log ∧ (tidy log → tidy (log ++ evs)).
Proof.
  induction evs as [|e evs IH] using rev_ind; intros Hw.
  - by rewrite app_nil_r.
  - apply Forall_app in Hw as [Hw He]. apply Forall_inv in He.
    destruct e as [| |o s]; try done. destruct (IH Hw) as [Hl Ht].
    rewrite app_assoc, live_snoc. split; [done|]. intros H. by apply tidy_wrote, Ht.
Qed.

Lemma linked_boot (fs : gmap string fs_entry) (ok : bool) (o : ordering) :
  linked (Locals 0 0 None) (boot fs ok o).
Proof. split; [done| |apply tidy_nil]. cbn. by rewrite dom_empty_L. Qed.

(** One turn of the loop keeps [fp] and the open streams in step. *)
Lemma switch_linked (argv : list string) (e : flag) (l : locals) (w : world) :
  linked l w →
  match main_switch argv (opt_code e) (opt_arg e) l w with
  | Ret l' w' => linked l' w'
  | Exit _ w' => settled w'
  | Fault _ => True
  end.
Proof.
  intros [Hfp Hopen Htidy]. destruct e as [|path|value|].
  - rewrite switch_v. by split.
  - rewrite switch_f. cbn zeta.
    assert (H1 : live (w_log (after_close l w)) = ∅ ∧
                 dom (w_open (after_close l w)) = ∅ ∧ tidy (w_log (after_close l w))).
    { unfold after_close. destruct (fp l) as [h|] eqn:Efp; cbn in *.
      - rewrite live_snoc, dom_delete_L, Hopen, Hfp. cbn.
        rewrite difference_diag_L. split; [done|]. split; [done|].
        apply tidy_snoc; [done|]. rewrite live_snoc, Hfp. cbn.
        rewrite difference_diag_L, size_empty. lia.
      - by rewrite Hopen, Hfp. }
    destruct H1 as (Hl1 & Ho1 & Ht1).
    destruct (w_fs w !! path) as [[f|err]|].
    + split; cbn [w_log w_open log_event set_next set_open fp as_set].
      * rewrite live_snoc, Hl1. cbn. apply union_empty_r_L.
      * rewrite live_snoc, Hl1, dom_insert_L, Ho1. done.
      * apply tidy_snoc; [done|]. rewrite live_snoc, Hl1. cbn.
        by rewrite union_empty_r_L, size_singleton.
    + split; [by apply tidy_wrote|]. cbn. by rewrite live_snoc, Ho1, Hl1.
    + split; [by apply tidy_wrote|]. cbn. by rewrite live_snoc, Ho1, Hl1.
  - destruct (switch_n argv value l w) as (w1 & -> & Hl1 & Ho1 & _).
    split; cbn; by rewrite ?Ho1, ?Hl1.
  - destruct argv as [|argv0 argv']; [by switch_case|].
    rewrite switch_bad. split; [by apply tidy_wrote|]. cbn. by rewrite live_snoc.
Qed.

Lemma process_linked (argv : list string) (es : list flag) (l : locals) (w : world) :
  linked l w →
  match process argv es l w with
  | Ret l' w' => linked l' w'
  | Exit _ w' => settled w'
  | Fault _ => True
  end.
Proof.
  revert l w. induction es as [|e es IH]; intros l w Hl; [done|].
  cbn [process]. unfold mbind, M_bind.
  pose proof (switch_linked argv e l w Hl) as Hsw.
  destruct (main_switch argv (opt_code e) (opt_arg e) l w) as [l1 w1| |]; [|done|done].
  by apply IH.
Qed.

(** The rest of [main] opens and closes nothing. *)
Lemma finish_writes (l : locals) (w : world) :
  linked l w →
  ∃ s w' evs, finish l w = (match fp l with Some _ => Ret s w' | None => Exit s w' end) ∧
              w_log w' = w_log w ++ evs ∧
              Forall (λ e, match e with Wrote _ _ => True | _ => False end) evs.
Proof.
  intros [Hfp Hopen Htidy]. destruct (fp l) as [h|] eqn:Efp.
  - assert (is_Some (w_open w !! h)) as [f Hf].
    { apply elem_of_dom. rewrite Hopen, Hfp. cbn. by apply elem_of_singleton. }
    destruct (finish_open l w h f Efp Hf) as (w' & -> & Hlog).
    eexists. exists w'. eexists. split; [done|]. split; [done|].
    destruct (w_stdout_ok w); [|done].
    apply Forall_app. split; [by repeat constructor|].
    by apply Forall_fmap, Forall_true.
  - destruct (finish_null l w Efp) as (w' & -> & Hlog).
    eexists. exists w'. eexists. split; [done|]. split; [done|].
    apply Forall_app. split; [|by repeat constructor].
    destruct (w_stdout_ok w); by repeat constructor.
Qed.

End OpenStreams.

(** ** The three ways a run ends *)

Section Runs.

Variable fs : gmap string fs_entry.
Variable ok : bool.
Variable o : ordering.
Variable argv : list string.

Let es := command_line o argv.

Lemma run_process :
  run argv (boot fs ok o) =
    match process argv es (Locals 0 0 None) (boot fs ok o) with
    | Ret l w' =>
        match finish l w' with
        | Ret s w'' | Exit s w'' => Exit s w''
        | Fault f => Fault f
        end
    | Exit s w' => Exit s w'
    | Fault f => Fault f
    end.
Proof.
  unfold run. rewrite main_process. fold es.
  change (w_ordering (boot fs ok o)) with o. fold es.
  by destruct (process argv es _ _).
Qed.

Lemma command_line_argv0 (e : flag) : e ∈ es → ∃ argv0 argv', argv = argv0 :: argv'.
Proof.
  unfold es, command_line. destruct argv as [|argv0 argv']; [by intros ?%elem_of_nil|].
  intros _. by exists argv0, argv'.
Qed.

(** A flag that is not known or a file that cannot be opened ends the run
    at once, with one line on the error stream. *)
Lemma run_rejected (pre : list flag) (e : flag) (post : list flag) (msg : string) :
  es = pre ++ e :: post →
  accepted fs pre = true →
  diagnosis fs (default "" (head argv)) e = Some msg →
  ∃ w' evs, run argv (boot fs ok o) = Exit EXIT_FAILURE w' ∧
            w_log w' = evs ++ [Wrote Stderr msg] ∧ quiet evs.
Proof.
  intros Hes Hpre Hd. rewrite run_process.
  destruct (command_line_argv0 e) as (argv0 & argv' & Hargv).
  { rewrite Hes. apply elem_of_app. right. by left. }
  rewrite Hes, Hargv in *. cbn [head default] in Hd.
  destruct (process_rejected argv0 argv' pre e post msg (Locals 0 0 None) (boot fs ok o))
    as (w' & evs & -> & Hlog & Hq); [done|done|done|].
  by exists w', evs.
Qed.

(** Without a file the summary is printed and the copy fails. *)
Lemma run_no_input :
  accepted fs es = true → last_f es = None →
  ∃ w', run argv (boot fs ok o) = Exit EXIT_FAILURE w' ∧
        w_log w' = (if ok then summary (shown_verbose o argv) (shown_number o argv) else []) ++
                   [Wrote Stderr (lit "dump_file: Invalid argument\n")].
Proof.
  intros Hacc Hf. rewrite run_process.
  destruct (process_accepted argv es (Locals 0 0 None) (boot fs ok o))
    as (l & w1 & -> & [Hverb Hnum Hin (evs & Hlog & Hq) (_ & Hok & _)]); [done|done|].
  rewrite Hf in Hin. destruct Hin as (Hfp & _ & Hlog1).
  destruct (finish_null l w1 Hfp) as (w' & -> & Hlog').
  exists w'. split; [done|]. rewrite Hlog', Hlog1, Hok, Hverb, Hnum. done.
Qed.

(** With a file the summary is followed by what the copy loop writes. *)
Lemma run_copy (path : string) :
  accepted fs es = true → last_f es = Some path →
  ∃ f w' evs, fs !! path = Some (Readable f) ∧
              run argv (boot fs ok o) = Exit EXIT_SUCCESS w' ∧
              w_log w' = evs ++ (if ok
                                 then summary (shown_verbose o argv) (shown_number o argv) ++
                                      (Wrote Stdout <$> copied f)
                                 else []) ∧
              quiet evs.
Proof.
  intros Hacc Hf. rewrite run_process.
  destruct (process_accepted argv es (Locals 0 0 None) (boot fs ok o))
    as (l & w1 & -> & [Hverb Hnum Hin (evs & Hlog & Hq) (_ & Hok & _)]); [done|done|].
  rewrite Hf in Hin. destruct Hin as (h & f & Hfp & Hfs & Hopen).
  destruct (finish_open l w1 h f Hfp Hopen) as (w' & -> & Hlog').
  exists f, w', evs. split; [done|]. split; [done|]. split; [|done].
  rewrite Hlog', Hlog, Hok, Hverb, Hnum. done.
Qed.

(** Every run ends with an exit status. *)
Lemma run_status :
  ∃ w', run argv (boot fs ok o) =
          Exit (if accepted fs es && bool_decide (is_Some (last_f es))
                then EXIT_SUCCESS else EXIT_FAILURE) w'.
Proof.
  destruct (accepted fs es) eqn:Hacc.
  - destruct (last_f es) as [path|] eqn:Hf.
    + destruct (run_copy path Hacc Hf) as (f & w' & evs & _ & -> & _). by exists w'.
    + destruct (run_no_input Hacc Hf) as (w' & -> & _). by exists w'.
  - destruct (rejected_split fs (default "" (head argv)) es Hacc)
      as (pre & e & post & msg & Hes & Hpre & Hd).
    destruct (run_rejected pre e post msg Hes Hpre Hd) as (w' & evs & -> & _).
    by exists w'.
Qed.

End Runs.

(** ** The output of a run *)

Lemma written_summary (v n : Z) :
  written Stdout (summary v n) = verbose_line v +:+ number_line n ∧
  written Stderr (summary v n) = "".
Proof. split; [|done]. cbn. by rewrite sapp_nil_r. Qed.

Lemma copied_text (f : stream) :
  s_fail f = false → is_text (s_data f) = true → concat (copied f) = s_data f.
Proof.
  intros Hok Htext. unfold copied. rewrite reads_text by done.
  apply reads_concat; [done|lia].
Qed.

Lemma complaint_accepted (fs : gmap string fs_entry) (argv0 : string) (es : list flag) :
  complaint fs argv0 es = None ↔ accepted fs es = true.
Proof.
  induction es as [|e es IH]; [done|].
  destruct e as [|path| |]; cbn; try done. by destruct (fs !! path) as [[]|].
Qed.

Lemma complaint_split (fs : gmap string fs_entry) (argv0 : string) (es : list flag) (msg : string) :
  complaint fs argv0 es = Some msg →
  ∃ pre e post, es = pre ++ e :: post ∧ accepted fs pre = true ∧
                diagnosis fs argv0 e = Some msg.
Proof.
  induction es as [|e es IH]; [done|]. cbn [complaint].
  destruct (diagnosis fs argv0 e) as [m|] eqn:Ed.
  - intros [= ->]. by exists [], e, es.
  - intros (pre & e' & post & -> & Hpre & Hd)%IH.
    exists (e :: pre), e', post. split; [done|]. split; [|done].
    destruct e as [|path| |]; cbn in *; try done. by destruct (fs !! path) as [[]|].
Qed.

Lemma complaint_first (fs : gmap string fs_entry) (argv0 : string) (pre : list flag) (e : flag)
    (post : list flag) (msg : string) :
  accepted fs pre = true → diagnosis fs argv0 e = Some msg →
  complaint fs argv0 (pre ++ e :: post) = Some msg.
Proof.
  intros Hpre Hd. induction pre as [|e' pre IH]; cbn [app complaint]; [by rewrite Hd|].
  destruct e' as [|path| |]; cbn in *; try done; try by apply IH.
  destruct (fs !! path) as [[]|]; try done. by apply IH.
Qed.

Lemma complaint_without_v (fs : gmap string fs_entry) (argv0 : string) (es : list flag) :
  complaint fs argv0 (without_v es) = complaint fs argv0 es.
Proof.
  induction es as [|e es IH]; [done|]. destruct e; cbn; try done; by rewrite IH.
Qed.

Lemma last_f_without_v (es : list flag) : last_f (without_v es) = last_f es.
Proof. induction es as [|e es IH]; [done|]. destruct e; cbn; by rewrite ?IH. Qed.

Lemma last_n_without_v (es : list flag) : last_n (without_v es) = last_n es.
Proof. induction es as [|e es IH]; [done|]. destruct e; cbn; by rewrite ?IH. Qed.

Section Output.

Variable fs : gmap string fs_entry.
Variable ok : bool.
Variable o : ordering.
Variable argv : list string.

Let es := command_line o argv.
Let r := run argv (boot fs ok o).

(** A rejected command line: the complaint on the error stream, nothing
    on standard output. *)
Lemma rejected_output (msg : string) :
  complaint fs (default "" (head argv)) es = Some msg →
  status_of r = Some EXIT_FAILURE ∧ stdout_of r = "" ∧ stderr_of r = msg.
Proof.
  intros (pre & e & post & Hes & Hpre & Hd)%complaint_split.
  destruct (run_rejected fs ok o argv pre e post msg Hes Hpre Hd) as (w' & evs & Hr & Hlog & Hq).
  unfold r, stdout_of, stderr_of. rewrite Hr. cbn [status_of log_of].
  rewrite Hlog, !written_app, !(written_quiet _ _ Hq). cbn.
  by rewrite !sapp_nil_l, sapp_nil_r.
Qed.

(** An accepted command line: the summary, then the copy or its failure. *)
Lemma accepted_output :
  accepted fs es = true →
  status_of r = Some (match last_f es with Some _ => EXIT_SUCCESS | None => EXIT_FAILURE end) ∧
  stdout_of r =
    (if ok
     then verbose_line (shown_verbose o argv) +:+ number_line (shown_number o argv) +:+
          match input_stream fs es with Some f => concat (copied f) | None => "" end
     else "") ∧
  stderr_of r =
    match last_f es with Some _ => "" | None => lit "dump_file: Invalid argument\n" end.
Proof.
  intros Hacc. unfold input_stream, r, stdout_of, stderr_of.
  destruct (written_summary (shown_verbose o argv) (shown_number o argv)) as [Hs1 Hs2].
  destruct (last_f es) as [path|] eqn:Hf.
  - destruct (run_copy fs ok o argv path Hacc Hf) as (f & w' & evs & -> & -> & Hlog & Hq).
    cbn [status_of log_of]. rewrite Hlog, !written_app, !(written_quiet _ _ Hq).
    destruct ok; [|done]. rewrite !written_app, Hs1, Hs2, written_wrote, sapp_assoc.
    by destruct (written_other (copied f)) as [-> _].
  - destruct (run_no_input fs ok o argv Hacc Hf) as (w' & -> & Hlog).
    cbn [status_of log_of]. rewrite Hlog, !written_app.
    destruct ok; [|done]. rewrite Hs1, Hs2. cbn. by rewrite !sapp_nil_r.
Qed.

End Output.

Lemma command_line_flags (o : ordering) (prog : string) (n : nat) :
  command_line o (prog :: replicate n "-v") = replicate n OptV.
Proof.
  unfold command_line. cbn [tail].
  induction n as [|n IH]; [done|]. cbn [replicate options]. by rewrite <- IH.
Qed.

Lemma count_v_replicate (n : nat) : count_v (replicate n OptV) = n.
Proof. induction n as [|n IH]; [done|]. cbn. by rewrite IH. Qed.

Lemma command_line_render (o : ordering) (prog : string) (es : list flag) :
  command_line o (prog :: render es) = es.
Proof.
  unfold command_line. cbn [tail].
  induction es as [|e es IH]; [done|]. destruct e; cbn; by rewrite IH.
Qed.


Lemma unreadable_not_accepted (fs : gmap string fs_entry) (es : list flag) (path : string) :
  OptF path ∈ es → readable fs path = false → accepted fs es = false.
Proof.
  unfold readable. intros Hin Hr. induction es as [|e es IH]; [by apply elem_of_nil in Hin|].
  apply elem_of_cons in Hin as [<-|Hin].
  - cbn. by destruct (fs !! path) as [[]|].
  - destruct e as [|path'| |]; cbn; auto. destruct (fs !! path') as [[]|]; auto.
Qed.


(** ** The numeric argument *)

Lemma isdigit_range (c : ascii) : isdigit c = true → 0 ≤ digit_value c ≤ 9.
Proof. unfold isdigit, digit_value. lia. Qed.

Lemma decimal_value_nonneg (s : string) : all_digits s = true → 0 ≤ decimal_value s.
Proof.
  induction s as [|c s IH]; [done|]. cbn [all_digits decimal_value].
  intros [Hc Hs]%andb_true_iff. apply isdigit_range in Hc. specialize (IH Hs).
  assert (0 < 10 ^ Z.of_nat (String.length s)) by (apply Z.pow_pos_nonneg; lia). nia.
Qed.

Lemma scan_digits_decimal (s : string) (acc : Z) :
  all_digits s = true → 0 ≤ acc →
  acc * 10 ^ Z.of_nat (String.length s) + decimal_value s ≤ ULONG_MAX →
  scan_digits s acc false = (acc * 10 ^ Z.of_nat (String.length s) + decimal_value s, false).
Proof.
  revert acc. induction s as [|c s IH]; intros acc Hs Hacc Hmax.
  { cbn. f_equal. lia. }
  cbn [all_digits] in Hs. apply andb_true_iff in Hs as [Hc Hs].
  cbn [scan_digits decimal_value String.length] in *. rewrite Hc. cbn [orb].
  pose proof (isdigit_range c Hc) as Hd. pose proof (decimal_value_nonneg s Hs) as Hv.
  assert (Hp : 0 < 10 ^ Z.of_nat (String.length s)) by (apply Z.pow_pos_nonneg; lia).
  rewrite Nat2Z.inj_succ, Z.pow_succ_r in * by lia.
  assert (Hle : acc * 10 + digit_value c ≤ ULONG_MAX) by nia.
  apply Z.ltb_ge in Hle. rewrite Hle.
  rewrite IH; [f_equal; lia|done|lia|lia].
Qed.

Lemma strtoul_decimal (s : string) :
  is_decimal s = true → decimal_value s ≤ ULONG_MAX → strtoul_value s = decimal_value s.
Proof.
  destruct s as [|c s]; [done|]. cbn [is_decimal].
  intros Hs Hmax. pose proof Hs as [Hc _]%andb_true_iff.
  unfold strtoul_value, strtoul_parse. cbn [skip_space].
  assert (isspace c = false) as -> by (unfold isspace, isdigit in *; lia).
  assert (Ascii.eqb c "-" = false) as ->.
  { apply Ascii.eqb_neq. intros ->. done. }
  assert (Ascii.eqb c "+" = false) as ->.
  { apply Ascii.eqb_neq. intros ->. done. }
  rewrite scan_digits_decimal; [cbn; f_equal; lia|done|done|lia].
Qed.

Lemma scan_digits_none (s : string) :
  match s with String c _ => isdigit c = false | EmptyString => True end →
  scan_digits s 0 false = (0, false).
Proof. destruct s as [|c s]; [done|]. cbn. by intros ->. Qed.

Lemma strtoul_no_conversion (s : string) : no_conversion s = true → strtoul_value s = 0.
Proof.
  unfold no_conversion, strtoul_value, strtoul_parse.
  destruct (skip_space s) as [|c rest]; [done|].
  destruct (Ascii.eqb c "-") eqn:Em; cbn [orb].
  { intros H. rewrite scan_digits_none; [done|].
    destruct rest; [done|]. by apply negb_true_iff. }
  destruct (Ascii.eqb c "+") eqn:Ep.
  { intros H. rewrite scan_digits_none; [done|].
    destruct rest; [done|]. by apply negb_true_iff. }
  intros H. rewrite scan_digits_none; [done|]. by apply negb_true_iff.
Qed.

(** [printf] writes a numeral without leading zero as it was given. *)
Lemma usize_length (d : Decimal.uint) :
  Z.of_N (Unsigned.usize d) = Z.of_nat (String.length (NilEmpty.string_of_uint d)).
Proof. induction d; cbn [Unsigned.usize NilEmpty.string_of_uint String.length]; lia. Qed.

Lemma of_uint_digit (d : Decimal.uint) (k : positive) :
  Z.pos (Pos.of_uint_acc d k) = Z.pos k * 10 ^ Z.of_N (Unsigned.usize d) + Z.of_uint d.
Proof.
  unfold Z.of_uint. rewrite Unsigned.of_uint_alt.
  change (Z.pos (Pos.of_uint_acc d k)) with (Z.of_N (N.pos (Pos.of_uint_acc d k))).
  rewrite Unsigned.of_uint_acc_rev. rewrite N2Z.inj_add, N2Z.inj_mul, N2Z.inj_pow. cbn. lia.
Qed.

Lemma decimal_value_of_uint (d : Decimal.uint) :
  decimal_value (NilEmpty.string_of_uint d) = Z.of_uint d.
Proof.
  induction d; cbn [NilEmpty.string_of_uint decimal_value]; [done|..];
    rewrite IHd, <- usize_length;
    [ unfold Z.of_uint; cbn [Pos.of_uint]; change (digit_value "0") with 0; lia
    | unfold Z.of_uint at 2; cbn [Pos.of_uint Z.of_N]; rewrite of_uint_digit; reflexivity .. ].
Qed.

Lemma all_digits_uint (s : string) :
  all_digits s = true → ∃ d, NilEmpty.uint_of_string s = Some d.
Proof.
  induction s as [|c s IH]; [by eexists|]. cbn [all_digits NilEmpty.uint_of_string].
  intros [Hc [d ->]%IH]%andb_true_iff.
  destruct c as [[] [] [] [] [] [] [] []]; try discriminate Hc; by eexists.
Qed.

Lemma print_decimal_value (s : string) :
  canonical s = true → print_int (decimal_value s) = s.
Proof.
  destruct s as [|c s]; [done|]. unfold canonical.
  intros [Hd Hc]%andb_true_iff.
  destruct (all_digits_uint _ Hd) as [d Hu]. pose proof (NilEmpty.sus _ _ Hu) as Hs.
  rewrite <- Hs at 1. rewrite decimal_value_of_uint. unfold print_int.
  change (Z.of_uint d) with (Z.of_int (Decimal.Pos d)). rewrite DecimalZ.to_of.
  cbn [Decimal.norm NilZero.string_of_int].
  assert (Decimal.unorm d = d) as ->.
  { destruct d; try done; cbn in Hs; injection Hs as <- <-.
    cbn in Hc. apply String.eqb_eq in Hc. by destruct d. }
  unfold NilZero.string_of_uint. destruct d; [done|..]; exact Hs.
Qed.

Lemma canonical_is_decimal (s : string) : canonical s = true → is_decimal s = true.
Proof. destruct s as [|c s]; [done|]. unfold canonical. by intros [? _]%andb_true_iff. Qed.

(** ** The properties of the specification *)

(** C1: with [-f path] naming a readable text file, standard output is the
    two summary lines followed by the bytes of the file, unchanged and
    whatever the length of its lines, and the exit status is 0. *)
Theorem file_round_trip (fs : gmap string fs_entry) (o : ordering) (argv : list string)
    (path data : string) :
  accepted fs (command_line o argv) = true →
  last_f (command_line o argv) = Some path →
  fs !! path = Some (Readable (Stream data false)) →
  is_text data = true →
  status_of (run argv (boot fs true o)) = Some EXIT_SUCCESS ∧
  stdout_of (run argv (boot fs true o)) =
    verbose_line (shown_verbose o argv) +:+ number_line (shown_number o argv) +:+ data.
Proof.
  intros Hacc Hf Hfs Htext.
  destruct (run_copy fs true o argv path Hacc Hf) as (f & w' & evs & Hfs' & -> & Hlog & Hq).
  rewrite Hfs in Hfs'. injection Hfs' as <-.
  split; [done|]. unfold stdout_of, log_of. rewrite Hlog, !written_app.
  rewrite (written_quiet _ _ Hq), written_wrote, copied_text by done.
  destruct (written_summary (shown_verbose o argv) (shown_number o argv)) as [-> _].
  cbn [s_data]. by rewrite sapp_nil_l, sapp_assoc.
Qed.

(** C2: [dump_file] fails exactly for a null stream, then at once with
    [EINVAL] and without output; for every other stream it returns success,
    whether the stream or the output fails or not; and the exit status is 0
    exactly when every flag was known, every file opened and a file was
    given. *)
Theorem dump_file_fails_iff_null :
  (∀ output w, ∃ w', dump_file None output w = Ret (-1) w' ∧
                     w_errno w' = EINVAL ∧ w_log w' = w_log w) ∧
  (∀ h output w, ∃ w', dump_file (Some h) output w = Ret 0 w') ∧
  (∀ filep output w, ∃ r w', dump_file filep output w = Ret r w' ∧ (r < 0 ↔ filep = None)) ∧
  (∀ fs ok o argv, ∃ s, status_of (run argv (boot fs ok o)) = Some s ∧
     (s = EXIT_SUCCESS ↔
      accepted fs (command_line o argv) = true ∧ is_Some (last_f (command_line o argv)))).
Proof.
  split; [|split; [|split]].
  - intros output w. rewrite dump_file_null. by eexists.
  - intros h output w. apply (dump_file_returns (Some h)).
  - intros filep output w. destruct (dump_file_returns filep output w) as (w' & ->).
    eexists. exists w'. split; [done|]. destruct filep; [|done]. split; [lia|done].
  - intros fs ok o argv. destruct (run_status fs ok o argv) as (w' & ->).
    eexists. split; [done|].
    destruct (accepted fs (command_line o argv)); cbn; [|by split; [|intros []]].
    case_bool_decide as H; cbn; [done|]. split; [done|]. by intros [_ ?].
Qed.

(** C3 (as amended): when the summary is printed, the [number  = ] line
    shows the value of the last [-n] if that is a string of decimal digits
    denoting at most [INT_MAX] (the digits themselves when there is no
    leading zero), and it shows 0, with no error, if that has no digit to
    convert. *)
Theorem number_line_shows_value (fs : gmap string fs_entry) (o : ordering)
    (argv : list string) (value : string) :
  accepted fs (command_line o argv) = true →
  last_n (command_line o argv) = Some value →
  (is_decimal value = true → decimal_value value ≤ INT_MAX →
   ∃ rest, stdout_of (run argv (boot fs true o)) =
             verbose_line (shown_verbose o argv) +:+
             ("number  = " +:+ print_int (decimal_value value) +:+ lit "\n") +:+ rest) ∧
  (canonical value = true → decimal_value value ≤ INT_MAX →
   ∃ rest, stdout_of (run argv (boot fs true o)) =
             verbose_line (shown_verbose o argv) +:+
             ("number  = " +:+ value +:+ lit "\n") +:+ rest) ∧
  (no_conversion value = true →
   ∃ rest, stdout_of (run argv (boot fs true o)) =
             verbose_line (shown_verbose o argv) +:+ lit "number  = 0\n" +:+ rest).
Proof.
  intros Hacc Hn.
  destruct (accepted_output fs true o argv Hacc) as (_ & -> & _).
  unfold shown_number, number_after. rewrite Hn.
  assert (Hdec : is_decimal value = true → decimal_value value ≤ INT_MAX →
                 to_int (strtoul_value value) = decimal_value value).
  { intros Hdec Hmax.
    rewrite strtoul_decimal by (try done; unfold INT_MAX, ULONG_MAX in *; lia).
    apply to_int_small. destruct value as [|c s]; [done|].
    pose proof (decimal_value_nonneg _ Hdec). unfold INT_MIN. lia. }
  split; [|split].
  - intros H1 H2. rewrite Hdec by done. by eexists.
  - intros H1 H2. rewrite Hdec by (try done; by apply canonical_is_decimal).
    unfold number_line. rewrite print_decimal_value by done. by eexists.
  - intros Hno. rewrite strtoul_no_conversion by done. by eexists.
Qed.

(** C4: every write of the copy loop is what one read returned: at least one
    and at most 78 bytes, 79 with the terminating NUL, not going past a line
    feed; written one after the other they are the data, unchanged; data
    longer than one read takes several reads, and the copy succeeds. *)
Theorem copy_splits_long_lines (h : nat) (output : ostream) (data : string) (w : world) :
  w_open w !! h = Some (Stream data false) →
  is_text data = true →
  writable output w = true →
  ∃ w' pieces,
    dump_file (Some h) output w = Ret 0 w' ∧
    w_log w' = w_log w ++ (Wrote output <$> pieces) ∧
    concat pieces = data ∧
    Forall (λ s, (0 < String.length s)%nat ∧ (String.length s + 1 ≤ 79)%nat ∧
                 ends_at_LF s = true) pieces ∧
    ((78 < String.length data)%nat → (2 ≤ length pieces)%nat).
Proof.
  intros Hopen Htext Hwr.
  destruct (dump_file_open h output _ w Hopen) as (w' & -> & Hlog & _).
  rewrite Hwr in Hlog. exists w'. exists (copied (Stream data false)).
  split; [done|]. split; [done|]. split; [by apply copied_text|].
  unfold copied. rewrite reads_text by done. split.
  - eapply Forall_impl; [apply reads_bounds|]. cbn. intros s [Hlen Hlf].
    split; [lia|]. split; [lia|done].
  - intros Hlong. apply reads_split; cbn; [done|lia|lia].
Qed.

(** C5: the number in the [verbose = ] line is the number of [-v] flags of
    the command line, whenever the line is printed, that is when every flag
    is known and every file opens; otherwise nothing is printed.  For a
    command line of [n] arguments [-v] the number of flags is [n], and for
    a command line written flag by flag each [-v] counts once. *)
Theorem verbose_counts_flags (fs : gmap string fs_entry) (o : ordering) (argv : list string) :
  Z.of_nat (count_v (command_line o argv)) ≤ INT_MAX →
  (if accepted fs (command_line o argv)
   then ∃ rest, stdout_of (run argv (boot fs true o)) =
                  verbose_line (Z.of_nat (count_v (command_line o argv))) +:+ rest
   else stdout_of (run argv (boot fs true o)) = "") ∧
  (∀ prog n, count_v (command_line o (prog :: replicate n "-v")) = n) ∧
  (∀ prog es, count_v (command_line o (prog :: render es)) = count_v es).
Proof.
  intros Hmax. split; [|split].
  2: { intros. by rewrite command_line_flags, count_v_replicate. }
  2: { intros. by rewrite command_line_render. }
  destruct (accepted fs (command_line o argv)) eqn:Hacc.
  - destruct (accepted_output fs true o argv Hacc) as (_ & -> & _).
    unfold shown_verbose. rewrite to_int_small by (unfold INT_MIN; lia). by eexists.
  - destruct (complaint fs (default "" (head argv)) (command_line o argv)) as [msg|] eqn:Hc.
    + by destruct (rejected_output fs true o argv msg Hc) as (_ & -> & _).
    + apply complaint_accepted in Hc. congruence.
Qed.

(** C6: at every point of a run at most one stream is open, whatever the
    command line, and so it is when the process ends: no stream opened
    earlier is left open.  With several [-f] the file of the last one is
    copied, and nothing is written to the error stream. *)
Theorem one_stream_at_a_time (fs : gmap string fs_entry) (ok : bool) (o : ordering)
    (argv : list string) :
  (∃ s w', run argv (boot fs ok o) = Exit s w' ∧
           tidy (w_log w') ∧ dom (w_open w') = live (w_log w') ∧
           (size (w_open w') ≤ 1)%nat) ∧
  (∀ path data,
     accepted fs (command_line o argv) = true →
     last_f (command_line o argv) = Some path →
     fs !! path = Some (Readable (Stream data false)) →
     is_text data = true → ok = true →
     status_of (run argv (boot fs ok o)) = Some EXIT_SUCCESS ∧
     stdout_of (run argv (boot fs ok o)) =
       verbose_line (shown_verbose o argv) +:+ number_line (shown_number o argv) +:+ data ∧
     stderr_of (run argv (boot fs ok o)) = "").
Proof.
  split.
  - destruct (run_status fs ok o argv) as (w' & Hrun). eexists. exists w'. split; [done|].
    assert (Hs : settled w').
    { rewrite run_process in Hrun.
      pose proof (process_linked argv (command_line o argv) _ _ (linked_boot fs ok o)) as Hp.
      destruct (process argv _ _ _) as [l w1| |]; [|by injection Hrun as _ <-|done].
      destruct (finish_writes l w1 Hp) as (s & w2 & evs & Hfin & Hlog & Hw).
      pose proof (finish_dom l w1) as Hdom. destruct Hp as [_ Hopen Ht].
      apply (live_writes (w_log w1)) in Hw as [Hlive Hw].
      assert (w2 = w') as ->.
      { rewrite Hfin in Hrun. by destruct (fp l); injection Hrun as _ <-. }
      assert (Hd : dom (w_open w') = dom (w_open w1)).
      { rewrite Hfin in Hdom. by destruct (fp l). }
      split; rewrite Hlog; [by apply Hw|]. by rewrite Hd, Hlive. }
    destruct Hs as [Ht Hd]. split; [done|]. split; [done|].
    rewrite <- size_dom, Hd. by apply tidy_now.
  - intros path data Hacc Hf Hfs Htext ->.
    destruct (accepted_output fs true o argv Hacc) as (Hst & Hout & Herr).
    rewrite Hf in Hst, Herr. split; [done|]. split; [|done].
    rewrite Hout. unfold input_stream. rewrite Hf, Hfs. by rewrite copied_text.
Qed.


(** C8 (as amended): a command line with a [-f] whose file cannot be opened
    ends with a failure status and nothing on standard output.  The one
    thing written is the complaint of the first option that is an unknown
    flag or a [-f] that cannot be opened.  When the scan reaches the [-f],
    every option before it handled without error, that is the description
    of its open failure: the run ends there, before any summary line and
    any copy. *)
Theorem open_failure_exits (fs : gmap string fs_entry) (ok : bool) (o : ordering)
    (argv : list string) (path : string) :
  OptF path ∈ command_line o argv →
  readable fs path = false →
  status_of (run argv (boot fs ok o)) = Some EXIT_FAILURE ∧
  stdout_of (run argv (boot fs ok o)) = "" ∧
  (∃ pre e post msg evs,
     command_line o argv = pre ++ e :: post ∧ accepted fs pre = true ∧
     (e = OptBad ∧ msg = usage_message (default "" (head argv)) ∨
      ∃ path', e = OptF path' ∧ readable fs path' = false ∧
               msg = "-f: error opening file: " +:+ strerror (open_errno fs path') +:+
                     lit "\n") ∧
     log_of (run argv (boot fs ok o)) = evs ++ [Wrote Stderr msg] ∧ quiet evs ∧
     stderr_of (run argv (boot fs ok o)) = msg) ∧
  (∀ pre post,
     command_line o argv = pre ++ OptF path :: post → accepted fs pre = true →
     stderr_of (run argv (boot fs ok o)) =
       "-f: error opening file: " +:+ strerror (open_errno fs path) +:+ lit "\n" ∧
     ∃ evs, log_of (run argv (boot fs ok o)) =
              evs ++ [Wrote Stderr (open_error (open_errno fs path))] ∧ quiet evs).
Proof.
  intros Hin Hr.
  pose proof (unreadable_not_accepted fs _ path Hin Hr) as Hacc.
  destruct (rejected_split fs (default "" (head argv)) _ Hacc)
    as (pre & e & post & msg & Hes & Hpre & Hd).
  pose proof (complaint_first fs _ pre e post msg Hpre Hd) as Hc. rewrite <- Hes in Hc.
  destruct (rejected_output fs ok o argv msg Hc) as (Hst & Hout & Herr).
  split; [done|]. split; [done|]. split.
  - destruct (run_rejected fs ok o argv pre e post msg Hes Hpre Hd)
      as (w' & evs & Hrun & Hlog & Hq).
    exists pre, e, post, msg, evs. split; [done|]. split; [done|].
    split; [|split; [by rewrite Hrun|done]].
    destruct e as [|path'| |]; cbn in Hd; try done.
    + right. exists path'. split; [done|]. unfold readable.
      destruct (fs !! path') as [[]|]; try done; by injection Hd as <-.
    + left. by injection Hd as <-.
  - intros pre' post' Hes' Hpre'.
    assert (Hd' : diagnosis fs (default "" (head argv)) (OptF path) =
                  Some (open_error (open_errno fs path))).
    { unfold readable in Hr. cbn. by destruct (fs !! path) as [[]|]. }
    pose proof (complaint_first fs _ pre' _ post' _ Hpre' Hd') as Hc'.
    rewrite <- Hes' in Hc'.
    destruct (rejected_output fs ok o argv _ Hc') as (_ & _ & Herr').
    split; [done|].
    destruct (run_rejected fs ok o argv pre' _ post' _ Hes' Hpre' Hd')
      as (w' & evs & -> & Hlog & Hq).
    by exists evs.
Qed.

(** C9: two command lines that differ only in their [-v] flags end with the
    same exit status and the same error output, and their standard outputs
    are both empty or differ in the [verbose = ] line only. *)
Theorem verbosity_changes_one_line (fs : gmap string fs_entry) (ok : bool) (o : ordering)
    (argv1 argv2 : list string) :
  head argv1 = head argv2 →
  without_v (command_line o argv1) = without_v (command_line o argv2) →
  status_of (run argv1 (boot fs ok o)) = status_of (run argv2 (boot fs ok o)) ∧
  stderr_of (run argv1 (boot fs ok o)) = stderr_of (run argv2 (boot fs ok o)) ∧
  ((stdout_of (run argv1 (boot fs ok o)) = "" ∧ stdout_of (run argv2 (boot fs ok o)) = "") ∨
   ∃ rest,
     stdout_of (run argv1 (boot fs ok o)) = verbose_line (shown_verbose o argv1) +:+ rest ∧
     stdout_of (run argv2 (boot fs ok o)) = verbose_line (shown_verbose o argv2) +:+ rest).
Proof.
  intros Hhead Hes.
  assert (Hc1 : complaint fs (default "" (head argv2)) (command_line o argv2) =
                complaint fs (default "" (head argv1)) (command_line o argv1)).
  { rewrite <- (complaint_without_v fs _ (command_line o argv1)).
    rewrite <- (complaint_without_v fs _ (command_line o argv2)).
    by rewrite Hes, Hhead. }
  destruct (complaint fs (default "" (head argv1)) (command_line o argv1)) as [msg|] eqn:Hc.
  - destruct (rejected_output fs ok o argv1 msg Hc) as (-> & -> & ->).
    destruct (rejected_output fs ok o argv2 msg Hc1) as (-> & -> & ->).
    split; [done|]. split; [done|]. by left.
  - apply complaint_accepted in Hc, Hc1.
    destruct (accepted_output fs ok o argv1 Hc) as (-> & -> & ->).
    destruct (accepted_output fs ok o argv2 Hc1) as (-> & -> & ->).
    assert (Hf : last_f (command_line o argv1) = last_f (command_line o argv2))
      by (by rewrite <- last_f_without_v, Hes, last_f_without_v).
    assert (Hn : shown_number o argv1 = shown_number o argv2).
    { unfold shown_number, number_after.
      by rewrite <- last_n_without_v, Hes, last_n_without_v. }
    unfold input_stream. rewrite Hf, Hn. split; [done|]. split; [done|].
    destruct ok; [right; by eexists|by left].
Qed.

(** C10 (as amended): without [-f], when every flag is known, the program
    writes the two summary lines, [verbose = ] with the number of [-v]
    flags and [number  = ] with the value of the last [-n], then the
    complaint of the copy on the error stream, and ends with a failure
    status. *)
Theorem missing_input_after_summary (fs : gmap string fs_entry) (o : ordering)
    (argv : list string) :
  accepted fs (command_line o argv) = true →
  last_f (command_line o argv) = None →
  Z.of_nat (count_v (command_line o argv)) ≤ INT_MAX →
  status_of (run argv (boot fs true o)) = Some EXIT_FAILURE ∧
  log_of (run argv (boot fs true o)) =
    [Wrote Stdout ("verbose = " +:+ print_int (Z.of_nat (count_v (command_line o argv))) +:+ lit "\n");
     Wrote Stdout ("number  = " +:+ print_int (shown_number o argv) +:+ lit "\n");
     Wrote Stderr (lit "dump_file: Invalid argument\n")].
Proof.
  intros Hacc Hf Hmax.
  destruct (run_no_input fs true o argv Hacc Hf) as (w' & -> & Hlog).
  split; [done|]. cbn [log_of]. rewrite Hlog. unfold shown_verbose.
  by rewrite to_int_small by (unfold INT_MIN; lia).
Qed.

(** ** Further properties of the program *)

(** *** Writes that fail *)

(** X1: the program never looks at what [printf] and [fputs] return: when
    standard output rejects every write, nothing reaches it, and the exit
    status and the error stream are those of the run in which every write
    succeeds. *)
Theorem write_failure_is_ignored (fs : gmap string fs_entry) (o : ordering)
    (argv : list string) :
  status_of (run argv (boot fs false o)) = status_of (run argv (boot fs true o)) ∧
  stderr_of (run argv (boot fs false o)) = stderr_of (run argv (boot fs true o)) ∧
  stdout_of (run argv (boot fs false o)) = "".
Proof.
  destruct (complaint fs (default "" (head argv)) (command_line o argv)) as [msg|] eqn:Hc.
  - destruct (rejected_output fs false o argv msg Hc) as (-> & -> & ->).
    by destruct (rejected_output fs true o argv msg Hc) as (-> & _ & ->).
  - apply complaint_accepted in Hc.
    destruct (accepted_output fs false o argv Hc) as (-> & -> & ->).
    by destruct (accepted_output fs true o argv Hc) as (-> & _ & ->).
Qed.

(** *** Silence on success *)

Lemma diagnosis_nonempty (fs : gmap string fs_entry) (argv0 : string) (e : flag) (msg : string) :
  diagnosis fs argv0 e = Some msg → msg ≠ "".
Proof.
  assert (Hne : ∀ a b, (0 < String.length a)%nat → a +:+ b ≠ "").
  { intros a b Ha H%(f_equal String.length). rewrite sapp_length in H. cbn in H. lia. }
  destruct e as [|path| |]; cbn [diagnosis]; try done.
  - destruct (fs !! path) as [[]|]; try done; intros [= <-]; apply Hne; cbn; lia.
  - intros [= <-]. apply Hne. cbn. lia.
Qed.

(** X2: every run ends with status 0 or 1, and the error stream is empty
    exactly when the status is 0: a failure always comes with a message, a
    success never. *)
Theorem stderr_empty_iff_success (fs : gmap string fs_entry) (ok : bool) (o : ordering)
    (argv : list string) :
  ∃ s, status_of (run argv (boot fs ok o)) = Some s ∧
       (s = EXIT_SUCCESS ∨ s = EXIT_FAILURE) ∧
       (s = EXIT_SUCCESS ↔ stderr_of (run argv (boot fs ok o)) = "").
Proof.
  destruct (complaint fs (default "" (head argv)) (command_line o argv)) as [msg|] eqn:Hc.
  - destruct (rejected_output fs ok o argv msg Hc) as (-> & _ & ->).
    apply complaint_split in Hc as (pre & e & post & _ & _ & Hd%diagnosis_nonempty).
    exists EXIT_FAILURE. split; [done|]. split; [by right|]. split; [done|]. by intros ->.
  - apply complaint_accepted in Hc.
    destruct (accepted_output fs ok o argv Hc) as (-> & _ & ->).
    destruct (last_f (command_line o argv)); eexists; (split; [done|]).
    + split; [by left|]. done.
    + split; [by right|]. done.
Qed.

(** *** What the copy writes *)

Lemma c_str_is_text (s : string) : is_text (c_str s) = true.
Proof.
  induction s as [|c s IH]; [done|]. cbn [c_str].
  destruct (Ascii.eqb c NUL) eqn:E; [done|]. cbn [is_text]. by rewrite E, IH.
Qed.

Lemma c_str_length (s : string) : (String.length (c_str s) ≤ String.length s)%nat.
Proof.
  induction s as [|c s IH]; [done|]. cbn [c_str].
  destruct (Ascii.eqb c NUL); cbn; lia.
Qed.

Lemma reads_length (fuel : nat) (f : stream) :
  (String.length (concat (c_str <$> reads fuel f)) ≤ String.length (s_data f))%nat.
Proof.
  revert f. induction fuel as [|fuel IH]; intros f; [cbn; lia|]. cbn [reads].
  destruct (read_line (sizeof_buf - 2) (s_data f)) as [[line rest] short] eqn:Erd.
  destruct (read_line_spec _ _ _ _ _ Erd) as (Hdata & _).
  destruct (short && s_fail f); [cbn; lia|].
  destruct line as [|c line]; [cbn; lia|].
  cbn [fmap list_fmap concat]. rewrite Hdata, !sapp_length.
  pose proof (c_str_length (String c line)). specialize (IH (Stream rest (s_fail f))).
  cbn [s_data] in IH. lia.
Qed.

(** X3: whatever the bytes of the stream and whether or not its reads
    fail, [dump_file] returns 0 having written to [output] only: pieces
    without a NUL byte, in all no longer than the data.  It opens and closes
    no stream and leaves the file system alone. *)
Theorem dump_file_writes_text_to_output (h : nat) (output : ostream) (f : stream) (w : world) :
  w_open w !! h = Some f →
  ∃ w' pieces,
    dump_file (Some h) output w = Ret 0 w' ∧
    w_log w' = w_log w ++ (Wrote output <$> pieces) ∧
    Forall (λ s, is_text s = true) pieces ∧
    (String.length (concat pieces) ≤ String.length (s_data f))%nat ∧
    dom (w_open w') = dom (w_open w) ∧
    w_fs w' = w_fs w.
Proof.
  intros Hopen.
  pose proof (dump_file_dom (Some h) output w) as Hdom.
  destruct (dump_file_open h output f w Hopen) as (w' & Hr & Hlog & _ & Hfs & _).
  rewrite Hr in Hdom.
  exists w', (if writable output w then copied f else []).
  split; [done|]. split; [by destruct (writable output w)|].
  split; [|split; [|done]].
  - destruct (writable output w); [|done]. unfold copied.
    apply Forall_fmap, Forall_true. intros s. apply c_str_is_text.
  - destruct (writable output w); [apply reads_length|cbn; lia].
Qed.

(** *** A read that fails *)

Lemma reads_fail_prefix (fuel : nat) (data : string) :
  reads fuel (Stream data true) `prefix_of` reads fuel (Stream data false).
Proof.
  revert data. induction fuel as [|fuel IH]; intros data; [done|]. cbn [reads s_data s_fail].
  destruct (read_line (sizeof_buf - 2) data) as [[line rest] short].
  rewrite andb_false_r, andb_true_r.
  destruct short; [apply prefix_nil|].
  destruct line as [|c line]; [done|]. apply prefix_cons, IH.
Qed.

Lemma prefix_fmap {A B} (g : A → B) (l1 l2 : list A) :
  l1 `prefix_of` l2 → g <$> l1 `prefix_of` g <$> l2.
Proof. intros [k ->]. exists (g <$> k). by rewrite fmap_app. Qed.

Lemma read_line_complete (k : nat) (data line rest : string) (short : bool) :
  complete_lines data = true → data ≠ "" →
  read_line k data = (line, rest, short) → short = false ∧ complete_lines rest = true.
Proof.
  revert data line rest short.
  induction k as [|k IH]; intros data line rest short Hc Hne; cbn [read_line].
  { by intros [= <- <- <-]. }
  destruct data as [|c data]; [done|].
  destruct (Ascii.eqb c LF) eqn:Ec.
  { intros [= <- <- <-]. split; [done|]. destruct data; [done|exact Hc]. }
  assert (data ≠ "") as Hne'.
  { intros ->. cbn in Hc. congruence. }
  assert (complete_lines data = true) as Hc' by (by destruct data).
  destruct (read_line k data) as [[line' rest'] short'] eqn:E.
  intros [= <- <- <-]. by apply (IH data line' rest' short').
Qed.

Lemma reads_fail_complete (fuel : nat) (data : string) :
  complete_lines data = true →
  reads fuel (Stream data true) = reads fuel (Stream data false).
Proof.
  revert data. induction fuel as [|fuel IH]; intros data Hc; [done|].
  cbn [reads s_data s_fail].
  destruct (read_line (sizeof_buf - 2) data) as [[line rest] short] eqn:Erd.
  rewrite andb_false_r, andb_true_r.
  destruct data as [|c data].
  { cbn in Erd. injection Erd as <- <- <-. done. }
  destruct (read_line_complete _ _ _ _ _ Hc ltac:(done) Erd) as [-> Hrest].
  destruct line; [done|]. f_equal. by apply IH.
Qed.

(** X4: the loop takes a failed read for the end of the file.  Reading the
    same bytes from a stream whose reads fail at the end of the data,
    [dump_file] still returns 0, and what it writes is a prefix of what it
    writes when the reads succeed: only an unfinished last line can be lost.
    Data that ends with a line feed is copied in full. *)
Theorem read_error_loses_last_line_only (h : nat) (output : ostream) (data : string)
    (w : world) :
  ∃ w1 w2,
    dump_file (Some h) output (with_stream h (Stream data true) w) = Ret 0 w1 ∧
    dump_file (Some h) output (with_stream h (Stream data false) w) = Ret 0 w2 ∧
    w_log w1 `prefix_of` w_log w2 ∧
    (complete_lines data = true → w_log w1 = w_log w2).
Proof.
  destruct (dump_file_open h output (Stream data true) (with_stream h (Stream data true) w))
    as (w1 & Hr1 & Hlog1 & _); [apply lookup_insert_eq|].
  destruct (dump_file_open h output (Stream data false) (with_stream h (Stream data false) w))
    as (w2 & Hr2 & Hlog2 & _); [apply lookup_insert_eq|].
  exists w1, w2. split; [done|]. split; [done|]. rewrite Hlog1, Hlog2.
  change (w_log (with_stream h _ w)) with (w_log w).
  assert (Hw : ∀ f, writable output (with_stream h f w) = writable output w)
    by (by destruct output).
  rewrite !Hw. unfold copied. cbn [s_data]. split.
  - apply prefix_app. destruct (writable output w); [|done].
    do 2 apply prefix_fmap. apply reads_fail_prefix.
  - intros Hc. by rewrite (reads_fail_complete _ _ Hc).
Qed.

(** *** Lines that fit the buffer *)

Lemma split_lines_nil (s : string) : split_lines s = [] → s = "".
Proof.
  destruct s as [|c s]; [done|]. cbn [split_lines].
  destruct (Ascii.eqb c LF); [done|]. by destruct (split_lines s).
Qed.

Lemma read_line_first (k : nat) (data l : string) (ls : list string) :
  split_lines data = l :: ls → (String.length l ≤ k)%nat →
  ∃ rest short, read_line k data = (l, rest, short) ∧ split_lines rest = ls.
Proof.
  revert k l ls. induction data as [|c data IH]; intros k l ls; [done|].
  cbn [split_lines]. destruct (Ascii.eqb c LF) eqn:Ec.
  { intros [= <- <-] Hk. destruct k as [|k]; [cbn in Hk; lia|].
    cbn [read_line]. rewrite Ec. by eexists _, _. }
  destruct (split_lines data) as [|l0 ls0] eqn:Es.
  - intros [= <- <-] Hk. destruct k as [|k]; [cbn in Hk; lia|].
    apply split_lines_nil in Es as ->. cbn [read_line]. rewrite Ec.
    destruct k; by eexists _, _.
  - intros [= <- <-] Hk. destruct k as [|k]; [cbn in Hk; lia|].
    cbn [read_line]. rewrite Ec.
    destruct (IH k l0 ls0 eq_refl) as (rest & short & -> & Hrest); [cbn in Hk; lia|].
    by eexists _, _.
Qed.

Lemma split_lines_length (s : string) : (length (split_lines s) ≤ String.length s)%nat.
Proof.
  induction s as [|c s IH]; [done|]. cbn [split_lines String.length].
  destruct (Ascii.eqb c LF); [cbn; lia|].
  destruct (split_lines s); cbn in *; lia.
Qed.

Lemma reads_short_lines (fuel : nat) (data : string) :
  Forall (λ l, (String.length l ≤ sizeof_buf - 2)%nat) (split_lines data) →
  (length (split_lines data) < fuel)%nat →
  reads fuel (Stream data false) = split_lines data.
Proof.
  revert data. induction fuel as [|fuel IH]; intros data Hall Hfuel; [lia|].
  cbn [reads s_data s_fail].
  destruct (split_lines data) as [|l ls] eqn:Es.
  { apply split_lines_nil in Es as ->. done. }
  apply Forall_cons in Hall as [Hl Hls].
  destruct (read_line_first _ _ _ _ Es Hl) as (rest & short & -> & Hrest).
  rewrite andb_false_r.
  assert (l ≠ "") as Hne.
  { destruct data as [|c data]; [done|]. cbn [split_lines] in Es.
    destruct (Ascii.eqb c LF); [by injection Es as <- _|].
    destruct (split_lines data); by injection Es as <- _. }
  destruct l as [|c l]; [done|]. f_equal.
  rewrite IH; rewrite Hrest; [done|done|cbn in Hfuel; lia].
Qed.

(** X5: a text whose lines all fit the buffer, at most 78 bytes with the
    line feed, is copied line by line: one write for each line, in
    order. *)
Theorem short_lines_are_copied_line_by_line (h : nat) (output : ostream) (data : string)
    (w : world) :
  w_open w !! h = Some (Stream data false) →
  writable output w = true →
  is_text data = true →
  Forall (λ l, (String.length l ≤ 78)%nat) (split_lines data) →
  ∃ w', dump_file (Some h) output w = Ret 0 w' ∧
        w_log w' = w_log w ++ (Wrote output <$> split_lines data).
Proof.
  intros Hopen Hwr Htext Hall.
  destruct (dump_file_open h output _ w Hopen) as (w' & Hr & Hlog & _).
  exists w'. split; [done|]. rewrite Hlog, Hwr. unfold copied.
  rewrite reads_text by done. cbn [s_data].
  rewrite reads_short_lines; [done|done|].
  pose proof (split_lines_length data). lia.
Qed.

(** *** The stream of the copied file *)

(** X6: [main] never closes the file it copies.  When every flag is known
    and every file opens, the table of open streams at exit holds exactly
    one stream if a [-f] was given, whatever their number, and none
    otherwise. *)
Theorem copied_file_stays_open (fs : gmap string fs_entry) (ok : bool) (o : ordering)
    (argv : list string) :
  accepted fs (command_line o argv) = true →
  ∃ s w', run argv (boot fs ok o) = Exit s w' ∧
          size (w_open w') =
            match last_f (command_line o argv) with Some _ => 1%nat | None => 0%nat end.
Proof.
  intros Hacc. rewrite run_process.
  destruct (process_accepted argv (command_line o argv) (Locals 0 0 None) (boot fs ok o))
    as (l & w1 & Hp & [_ _ Hin _ _]); [done|done|].
  pose proof (process_linked argv (command_line o argv) _ _ (linked_boot fs ok o)) as Hl.
  rewrite Hp in *. pose proof Hl as [Hfp Hopen _].
  assert (Hsize : size (w_open w1) =
            match last_f (command_line o argv) with Some _ => 1%nat | None => 0%nat end).
  { rewrite <- size_dom, Hopen, Hfp.
    destruct (last_f (command_line o argv)).
    - destruct Hin as (h & f & -> & _). cbn. apply size_singleton.
    - destruct Hin as (-> & _). cbn. apply size_empty. }
  pose proof (finish_dom l w1) as Hdom.
  destruct (finish_writes l w1 Hl) as (s & w' & evs & Hfin & _).
  rewrite Hfin in *. exists s, w'.
  destruct (fp l); (split; [done|]); by rewrite <- size_dom, Hdom, size_dom.
Qed.

(** *** The way the command line is written *)

Lemma process_argv0 (argv0 : string) (r1 r2 : list string) (es : list flag) (l : locals)
    (w : world) :
  process (argv0 :: r1) es l w = process (argv0 :: r2) es l w.
Proof.
  revert l w. induction es as [|e es IH]; intros l w; [done|].
  cbn [process]. unfold mbind, M_bind.
  change (main_switch (argv0 :: r1)) with (main_switch (argv0 :: r2)).
  destruct (main_switch (argv0 :: r2) (opt_code e) (opt_arg e) l w); [apply IH|done..].
Qed.

Lemma run_command_line (argv0 : string) (r1 r2 : list string) (w : world) :
  command_line (w_ordering w) (argv0 :: r1) = command_line (w_ordering w) (argv0 :: r2) →
  run (argv0 :: r1) w = run (argv0 :: r2) w.
Proof.
  intros Hes. unfold run. rewrite !main_process, Hes.
  by rewrite (process_argv0 argv0 r1 r2).
Qed.

(** X7: a run depends on the command line only through [argv[0]] and the
    options getopt finds in it.  Clusters such as [-vvn5], arguments glued
    to their flag, operands and what follows [--] make no difference: the
    run is that of the same options written flag by flag, each argument in
    an element of its own. *)
Theorem run_flag_by_flag (argv0 : string) (rest : list string) (w : world) :
  run (argv0 :: rest) w =
  run (argv0 :: render (command_line (w_ordering w) (argv0 :: rest))) w.
Proof.
  apply run_command_line. by rewrite command_line_render.
Qed.

Lemma options_operand (o : ordering) (es : list flag) (x : string) (l : list string) :
  NONOPTION_P x = true →
  options o NoArg (render es ++ x :: l) =
  options o NoArg (render es ++ match o with PERMUTE => l | REQUIRE_ORDER => [] end).
Proof.
  intros Hx. induction es as [|e es IH]; [|destruct e; cbn; by rewrite IH].
  cbn [render app options]. rewrite Hx.
  assert (String.eqb x "--" = false) as ->.
  { apply String.eqb_neq. by intros ->. }
  by destruct o.
Qed.

Lemma options_dashdash (o : ordering) (es : list flag) (l : list string) :
  options o NoArg (render es ++ "--" :: l) = options o NoArg (render es ++ []).
Proof. induction es as [|e es IH]; [done|]. destruct e; cbn; by rewrite IH. Qed.

(** X8: [main] never reads the operands.  After options written flag by
    flag, an element that is no option is passed over, with the elements
    that follow it when getopt stops at the first operand
    ([REQUIRE_ORDER]), and [--] ends the options: the run is that of the
    command line without them.  A file named without [-f] is not read. *)
Theorem operands_are_ignored (argv0 : string) (es : list flag) (x : string)
    (l : list string) (w : world) :
  NONOPTION_P x = true →
  run (argv0 :: render es ++ x :: l) w =
    run (argv0 :: render es ++
           match w_ordering w with PERMUTE => l | REQUIRE_ORDER => [] end) w ∧
  run (argv0 :: render es ++ "--" :: l) w = run (argv0 :: render es) w.
Proof.
  intros Hx. split; apply run_command_line; unfold command_line; cbn [tail].
  - by apply options_operand.
  - by rewrite options_dashdash, app_nil_r.
Qed.

(** X9: on a command line whose flags are all known and whose files all
    open, the order of the flags and the earlier [-n] and [-f] do not
    matter: two such command lines with as many [-v], the same last [-n]
    and the same last [-f] end with the same status, the same standard
    output and the same error stream. *)
Theorem last_flags_decide (fs : gmap string fs_entry) (ok : bool) (o : ordering)
    (argv1 argv2 : list string) :
  accepted fs (command_line o argv1) = true →
  accepted fs (command_line o argv2) = true →
  count_v (command_line o argv1) = count_v (command_line o argv2) →
  last_n (command_line o argv1) = last_n (command_line o argv2) →
  last_f (command_line o argv1) = last_f (command_line o argv2) →
  status_of (run argv1 (boot fs ok o)) = status_of (run argv2 (boot fs ok o)) ∧
  stdout_of (run argv1 (boot fs ok o)) = stdout_of (run argv2 (boot fs ok o)) ∧
  stderr_of (run argv1 (boot fs ok o)) = stderr_of (run argv2 (boot fs ok o)).
Proof.
  intros H1 H2 Hv Hn Hf.
  destruct (accepted_output fs ok o argv1 H1) as (-> & -> & ->).
  destruct (accepted_output fs ok o argv2 H2) as (-> & -> & ->).
  unfold shown_verbose, shown_number, number_after, input_stream.
  by rewrite Hv, Hn, Hf.
Qed.

(** *** Numbers out of the range of [int] *)

Lemma scan_digits_overflowed (s : string) (acc : Z) :
  all_digits s = true → scan_digits s acc true = (acc, true).
Proof.
  induction s as [|c s IH]; [done|]. cbn [all_digits scan_digits].
  intros [-> Hs]%andb_true_iff. cbn [orb]. by apply IH.
Qed.

Lemma scan_digits_beyond (s : string) (acc : Z) :
  all_digits s = true → 0 ≤ acc ≤ ULONG_MAX →
  ULONG_MAX < acc * 10 ^ Z.of_nat (String.length s) + decimal_value s →
  (scan_digits s acc false).2 = true.
Proof.
  revert acc. induction s as [|c s IH]; intros acc Hs Hacc Hmax.
  { cbn in Hmax. lia. }
  cbn [all_digits] in Hs. apply andb_true_iff in Hs as [Hc Hs].
  cbn [scan_digits decimal_value String.length] in *. rewrite Hc. cbn [orb].
  pose proof (isdigit_range c Hc) as Hd.
  rewrite Nat2Z.inj_succ, Z.pow_succ_r in Hmax by lia.
  destruct (ULONG_MAX <? acc * 10 + digit_value c) eqn:E.
  - by rewrite scan_digits_overflowed.
  - apply Z.ltb_ge in E. apply IH; [done|lia|lia].
Qed.

Lemma strtoul_digits (s : string) :
  is_decimal s = true →
  strtoul_value s = if decimal_value s <=? ULONG_MAX then decimal_value s else ULONG_MAX.
Proof.
  intros Hs. destruct (decimal_value s <=? ULONG_MAX) eqn:E.
  { apply Z.leb_le in E. by apply strtoul_decimal. }
  apply Z.leb_gt in E.
  destruct s as [|c s]; [done|]. cbn [is_decimal] in Hs.
  pose proof Hs as [Hc _]%andb_true_iff.
  unfold strtoul_value, strtoul_parse. cbn [skip_space].
  assert (isspace c = false) as -> by (unfold isspace, isdigit in *; lia).
  assert (Ascii.eqb c "-" = false) as ->.
  { apply Ascii.eqb_neq. intros ->. done. }
  assert (Ascii.eqb c "+" = false) as ->.
  { apply Ascii.eqb_neq. intros ->. done. }
  pose proof (scan_digits_beyond (String c s) 0 Hs) as Hb.
  destruct (scan_digits (String c s) 0 false) as [acc ovf].
  cbn [snd] in Hb. rewrite Hb; [done|unfold ULONG_MAX; lia|lia].
Qed.

Lemma number_line_of_run (fs : gmap string fs_entry) (o : ordering) (argv : list string)
    (value : string) :
  accepted fs (command_line o argv) = true →
  last_n (command_line o argv) = Some value →
  ∃ rest, stdout_of (run argv (boot fs true o)) =
            verbose_line (shown_verbose o argv) +:+
            number_line (to_int (strtoul_value value)) +:+ rest.
Proof.
  intros Hacc Hn. destruct (accepted_output fs true o argv Hacc) as (_ & -> & _).
  unfold shown_number, number_after. rewrite Hn. by eexists.
Qed.

(** X10: a [-n] value of decimal digits is not checked against the range of
    [int].  Up to [ULONG_MAX] the number line shows the value reduced
    modulo 2^32 into the range of [int]; beyond, [strtoul] returns
    [ULONG_MAX] and the line shows [-1]. *)
Theorem number_wraps_around (fs : gmap string fs_entry) (o : ordering) (argv : list string)
    (value : string) :
  accepted fs (command_line o argv) = true →
  last_n (command_line o argv) = Some value →
  is_decimal value = true →
  (∃ rest, stdout_of (run argv (boot fs true o)) =
             verbose_line (shown_verbose o argv) +:+
             number_line (stored_number (decimal_value value)) +:+ rest) ∧
  INT_MIN ≤ stored_number (decimal_value value) ≤ INT_MAX ∧
  (decimal_value value ≤ ULONG_MAX →
   ∃ k, stored_number (decimal_value value) = decimal_value value - k * 2 ^ 32) ∧
  (ULONG_MAX < decimal_value value → stored_number (decimal_value value) = -1).
Proof.
  intros Hacc Hn Hd. split; [|split; [|split]].
  - destruct (number_line_of_run fs o argv value Hacc Hn) as [rest ->].
    exists rest. unfold stored_number. by rewrite strtoul_digits.
  - apply to_int_range.
  - intros Hle. unfold stored_number. apply Z.leb_le in Hle. rewrite Hle.
    exists ((decimal_value value + 2147483648) / 4294967296). unfold to_int.
    change (2 ^ 32) with 4294967296.
    pose proof (Z.div_mod (decimal_value value + 2147483648) 4294967296). lia.
  - intros Hgt. unfold stored_number. apply Z.leb_gt in Hgt. by rewrite Hgt.
Qed.

Lemma strtoul_negative (s : string) :
  is_decimal s = true → decimal_value s ≤ ULONG_MAX →
  strtoul_value (String "-" s) = to_ulong (- decimal_value s).
Proof.
  intros Hs Hmax. unfold strtoul_value, strtoul_parse.
  change (skip_space (String "-" s)) with (String "-" s).
  destruct s as [|c s]; [done|]. cbn [is_decimal] in Hs.
  rewrite Ascii.eqb_refl. cbv iota beta.
  rewrite scan_digits_decimal; [cbn; do 2 f_equal; lia|done|done|lia].
Qed.

(** X11: a minus sign before the digits is accepted: [strtoul] negates in
    [unsigned long] and the assignment to an [int] brings the value back,
    so [-n -5] shows [number  = -5], down to [INT_MIN]. *)
Theorem negative_number_is_shown (fs : gmap string fs_entry) (o : ordering)
    (argv : list string) (digits : string) :
  accepted fs (command_line o argv) = true →
  last_n (command_line o argv) = Some (String "-" digits) →
  is_decimal digits = true →
  decimal_value digits ≤ 2147483648 →
  ∃ rest, stdout_of (run argv (boot fs true o)) =
            verbose_line (shown_verbose o argv) +:+
            number_line (- decimal_value digits) +:+ rest.
Proof.
  intros Hacc Hn Hd Hmax.
  destruct (number_line_of_run fs o argv _ Hacc Hn) as [rest ->]. exists rest.
  rewrite strtoul_negative by (done || unfold ULONG_MAX; lia).
  assert (0 ≤ decimal_value digits) as Hpos.
  { apply decimal_value_nonneg. by destruct digits. }
  do 3 f_equal. unfold to_int, to_ulong.
  destruct (decide (decimal_value digits = 0)) as [->|Hnz]; [done|].
  rewrite <- (Z.mod_unique (- decimal_value digits) 18446744073709551616 (-1)
             (18446744073709551616 - decimal_value digits)) by lia.
  rewrite <- (Z.mod_unique (18446744073709551616 - decimal_value digits + 2147483648)
             4294967296 4294967296 (2147483648 - decimal_value digits)) by lia.
  lia.
Qed.

(** *** A flag without its argument *)

Lemma command_line_missing_argument (o : ordering) (prog : string) (es : list flag)
    (x : string) :
  x = "-f" ∨ x = "-n" →
  command_line o (prog :: render es ++ [x]) = es ++ [OptBad].
Proof.
  intros Hx. unfold command_line. cbn [tail].
  induction es as [|e es IH]; [by destruct Hx as [-> | ->]|].
  destruct e; cbn; by rewrite IH.
Qed.

(** X12: a [-f] or [-n] that ends the command line has no argument to take:
    getopt reports it as an error and the run ends in the usage message, with
    a failure status and nothing on standard output. *)
Theorem missing_argument_is_usage (fs : gmap string fs_entry) (ok : bool) (o : ordering)
    (argv0 : string) (es : list flag) (x : string) :
  accepted fs es = true →
  x = "-f" ∨ x = "-n" →
  status_of (run (argv0 :: render es ++ [x]) (boot fs ok o)) = Some EXIT_FAILURE ∧
  stdout_of (run (argv0 :: render es ++ [x]) (boot fs ok o)) = "" ∧
  stderr_of (run (argv0 :: render es ++ [x]) (boot fs ok o)) =
    "usage: " +:+ c_str (basename argv0) +:+ lit " [-v]|[-f filename][-n integer]\n".
Proof.
  intros Hacc Hx.
  apply (rejected_output fs ok o (argv0 :: render es ++ [x])).
  rewrite (command_line_missing_argument o argv0 es x Hx). cbn [head default].
  by apply complaint_first.
Qed.

(** *** The values getopt returns *)

(** X13: with [opterr = 0] a call of getopt in the option loop writes
    nothing and returns [EOF], ['v'], ['f'], ['n'] or ['?'], never ['h']:
    [OPTSTR] has no [h], so [-h] reaches the usage message as any unknown
    flag does, through ['?'].  The state it leaves is again one of the
    loop. *)
Theorem getopt_returns_known_codes (argv : list string) (g : getopt_data) (w : world) :
  scanning argv g →
  ∃ r g', getopt argv OPTSTR g w = Ret (r, g') w ∧
          (r = EOF ∨ r = ch "v" ∨ r = ch "f" ∨ r = ch "n" ∨ r = ch "?") ∧
          r ≠ ch "h" ∧
          scanning argv g'.
Proof.
  intros Hg. destruct (getopt_reports argv g w Hg) as (r & g' & Hr & Hg' & Hrem).
  exists r, g'. split; [done|].
  destruct (remaining (w_ordering w) argv g) as [|e es].
  - subst r. split; [by left|]. done.
  - destruct Hrem as (-> & _). split; [|by destruct e].
    right. destruct e; cbn [opt_code]; auto.
Qed.

(** *** The name in the usage message *)

Lemma strip_trailing_slashes_name (a name : string) :
  name ≠ "" → contains "/" name = false →
  strip_trailing_slashes (a +:+ name) = a +:+ name.
Proof.
  intros Hne Hs. induction a as [|c a IH].
  - rewrite sapp_nil_l. clear Hne. induction name as [|c name IH]; [done|].
    cbn [contains] in Hs. apply orb_false_iff in Hs as [Hc Hs].
    cbn [strip_trailing_slashes]. rewrite (IH Hs). destruct name; [by rewrite Hc|done].
  - rewrite sapp_cons. cbn [strip_trailing_slashes]. rewrite IH.
    destruct (a +:+ name) eqn:E; [|done].
    apply (f_equal String.length) in E. rewrite sapp_length in E.
    destruct name; [done|]. cbn in E. lia.
Qed.

Lemma last_component_name (dir name : string) :
  contains "/" name = false → last_component (dir +:+ String "/" name) = name.
Proof.
  intros Hs. induction dir as [|c dir IH].
  - rewrite sapp_nil_l. cbn [last_component]. by rewrite Hs.
  - rewrite sapp_cons. cbn [last_component].
    assert (contains "/" (dir +:+ String "/" name) = true) as ->; [|done].
    clear IH. induction dir as [|d dir IH]; [by rewrite sapp_nil_l|].
    rewrite sapp_cons. cbn [contains]. by rewrite IH, orb_true_r.
Qed.

Lemma basename_name (dir name : string) :
  name ≠ "" → contains "/" name = false → basename (dir +:+ String "/" name) = name.
Proof.
  intros Hne Hs. unfold basename.
  pose proof (strip_trailing_slashes_name (dir +:+ "/") name Hne Hs) as Hstrip.
  rewrite sapp_assoc, sapp_cons, sapp_nil_l in Hstrip. rewrite Hstrip.
  pose proof (last_component_name dir name Hs) as Hlast.
  destruct (dir +:+ String "/" name) eqn:E; [|done].
  apply (f_equal String.length) in E. rewrite sapp_length in E. cbn in E. lia.
Qed.

(** X14: the usage message names the program by the last component of
    [argv[0]]: called as [dir/name], with any directory part, the message
    is that of [name]. *)
Theorem usage_leaves_directory_out (fs : gmap string fs_entry) (ok : bool) (o : ordering)
    (dir name : string) (rest : list string) (pre post : list flag) :
  (0 < String.length name)%nat → contains "/" name = false →
  command_line o ((dir +:+ String "/" name) :: rest) = pre ++ OptBad :: post →
  accepted fs pre = true →
  stderr_of (run ((dir +:+ String "/" name) :: rest) (boot fs ok o)) =
    "usage: " +:+ c_str name +:+ lit " [-v]|[-f filename][-n integer]\n".
Proof.
  intros Hne Hs Hes Hpre.
  destruct (rejected_output fs ok o ((dir +:+ String "/" name) :: rest)
              (usage_message (dir +:+ String "/" name))) as (_ & _ & ->).
  { rewrite Hes. cbn [head default]. by apply complaint_first. }
  unfold usage_message. rewrite basename_name; [done| |done].
  destruct name; [cbn in Hne; lia|done].
Qed.

(** *** The order of the events *)

(** X15: every run opens and closes its streams first, then writes to
    standard output, then to the error stream, where it writes at most one
    message, the last event of the run: no file is opened once the first
    byte is written, and nothing follows a complaint. *)
Theorem run_opens_then_writes (fs : gmap string fs_entry) (ok : bool) (o : ordering)
    (argv : list string) :
  ∃ evs outs errs,
    log_of (run argv (boot fs ok o)) =
      evs ++ (Wrote Stdout <$> outs) ++ (Wrote Stderr <$> errs) ∧
    quiet evs ∧ (length errs ≤ 1)%nat.
Proof.
  destruct (accepted fs (command_line o argv)) eqn:Hacc.
  - destruct (last_f (command_line o argv)) as [path|] eqn:Hf.
    + destruct (run_copy fs ok o argv path Hacc Hf) as (f & w' & evs & _ & -> & Hlog & Hq).
      exists evs,
        (if ok then [verbose_line (shown_verbose o argv); number_line (shown_number o argv)]
                    ++ copied f else []), [].
      split; [|split; [done|cbn; lia]]. cbn [log_of]. rewrite Hlog.
      destruct ok; [|done]. by rewrite fmap_app, app_nil_r.
    + destruct (run_no_input fs ok o argv Hacc Hf) as (w' & -> & Hlog).
      exists [],
        (if ok then [verbose_line (shown_verbose o argv); number_line (shown_number o argv)]
         else []), [lit "dump_file: Invalid argument\n"].
      split; [|split; [constructor|cbn; lia]]. cbn [log_of]. rewrite Hlog. by destruct ok.
  - destruct (rejected_split fs (default "" (head argv)) _ Hacc)
      as (pre & e & post & msg & Hes & Hpre & Hd).
    destruct (run_rejected fs ok o argv pre e post msg Hes Hpre Hd) as (w' & evs & -> & Hlog & Hq).
    exists evs, [], [msg]. split; [|split; [done|cbn; lia]]. cbn [log_of]. by rewrite Hlog.
Qed.

(** *** The files that are opened *)

Lemma process_handles (argv : list string) (es : list flag) (n : nat) (l l' : locals)
    (w w' : world) :
  accepted (w_fs w) es = true →
  w_next w = n → fp l = last_handle n → w_log w = handle_events n →
  process argv es l w = Ret l' w' →
  fp l' = last_handle (n + count_f es) ∧ w_log w' = handle_events (n + count_f es).
Proof.
  revert n l w. induction es as [|e es IH]; intros n l w Hacc Hn Hfp Hlog.
  { intros [= <- <-]. by rewrite Nat.add_0_r. }
  cbn [process]. unfold mbind, M_bind.
  destruct e as [|path|value|]; cbn [accepted count_f] in *.
  - rewrite switch_v. rewrite Nat.add_0_r || idtac. by apply IH.
  - rewrite switch_f. cbv zeta.
    destruct (w_fs w !! path) as [[f|]|] eqn:Efs; [|done|done].
    rewrite <- Nat.add_succ_comm. apply IH.
    + cbn. unfold after_close. by destruct (fp l).
    + cbn. unfold after_close. destruct (fp l); cbn; by rewrite Hn.
    + cbn. by rewrite Hn.
    + cbn [w_log log_event set_next set_open handle_events]. rewrite Hn.
      unfold after_close. rewrite Hfp.
      destruct n as [|k]; cbn; rewrite Hlog; cbn [handle_events]; [done|].
      by rewrite <- !app_assoc.
  - destruct (switch_n argv value l w) as (w1 & -> & Hlog1 & _ & Hnext & Hfs & _).
    apply IH; [by rewrite Hfs|congruence|done|congruence].
  - done.
Qed.

(** X16: the log of a run whose flags are all known and whose files all
    open, in full.  Every [-f] opens its file when the option loop reaches
    it, the one before being closed first, although only the last is read;
    then come the two lines of the summary, the pieces of the copy and,
    without a file, the complaint of [dump_file]. *)
Theorem accepted_run_log (fs : gmap string fs_entry) (ok : bool) (o : ordering)
    (argv : list string) :
  accepted fs (command_line o argv) = true →
  log_of (run argv (boot fs ok o)) =
    handle_events (count_f (command_line o argv)) ++
    (if ok
     then summary (shown_verbose o argv) (shown_number o argv) ++
          (Wrote Stdout <$> match input_stream fs (command_line o argv) with
                            | Some f => copied f
                            | None => []
                            end)
     else []) ++
    match last_f (command_line o argv) with
    | Some _ => []
    | None => [Wrote Stderr (lit "dump_file: Invalid argument\n")]
    end.
Proof.
  intros Hacc. rewrite run_process.
  destruct (process_accepted argv (command_line o argv) (Locals 0 0 None) (boot fs ok o))
    as (l & w1 & Hp & [Hverb Hnum Hin _ (_ & Hok & _)]); [done|done|].
  destruct (process_handles argv (command_line o argv) 0 (Locals 0 0 None) l
              (boot fs ok o) w1 Hacc eq_refl eq_refl eq_refl Hp) as [_ Hlog].
  rewrite Hp. unfold input_stream, shown_verbose, shown_number.
  cbn [verbose number] in Hverb, Hnum. rewrite Z.add_0_l in Hverb.
  destruct (last_f (command_line o argv)) as [path|].
  - destruct Hin as (h & f & Hfp & Hfs & Hopen). cbn in Hfs. rewrite Hfs.
    destruct (finish_open l w1 h f Hfp Hopen) as (w' & -> & Hlog').
    cbn [log_of]. rewrite Hlog', Hlog, Hok, Hverb, Hnum, app_nil_r. done.
  - destruct Hin as (Hfp & _).
    destruct (finish_null l w1 Hfp) as (w' & -> & Hlog').
    cbn [log_of]. rewrite Hlog', Hlog, Hok, Hverb, Hnum. done.
Qed.

(** ** Runs on a small file system *)

Ltac by_computation := vm_compute; first [reflexivity | discriminate | done].

Example run_copies_file :
  log_of (run ["./prog"; "-v"; "-f"; "b.txt"] (boot demo_fs true PERMUTE)) =
    [Opened 0; Wrote Stdout (lit "verbose = 1\n"); Wrote Stdout (lit "number  = 0\n");
     Wrote Stdout (lit "first\n"); Wrote Stdout (lit "second\n")].
Proof. by_computation. Qed.

Example run_clustered_flags :
  command_line PERMUTE ["./prog"; "-vvfb.txt"; "operand"; "-n"; "42"] =
    [OptV; OptV; OptF "b.txt"; OptN "42"] ∧
  command_line REQUIRE_ORDER ["./prog"; "-vvfb.txt"; "operand"; "-n"; "42"] =
    [OptV; OptV; OptF "b.txt"].
Proof. by_computation. Qed.

Example run_splits_line79 :
  log_of (run ["./prog"; "-f"; "a.txt"] (boot demo_fs true PERMUTE)) =
    [Opened 0; Wrote Stdout (lit "verbose = 0\n"); Wrote Stdout (lit "number  = 0\n");
     Wrote Stdout (repeat_char 78 "x"); Wrote Stdout (lit "\n")].
Proof. by_computation. Qed.

Example run_read_error_is_success :
  let fs : gmap string fs_entry := {[ "dir" := Readable (Stream "" true) ]} in
  status_of (run ["prog"; "-f"; "dir"] (boot fs true PERMUTE)) = Some EXIT_SUCCESS ∧
  status_of (run ["prog"; "-f"; "dir"] (boot fs false PERMUTE)) = Some EXIT_SUCCESS.
Proof. by_computation. Qed.

(** A NUL byte hides the rest of what the read returned from [fputs]. *)
Example run_stops_at_NUL :
  let fs : gmap string fs_entry :=
    {[ "bin" := Readable (Stream (String "a" (String NUL (lit "b\nc\n"))) false) ]} in
  log_of (run ["prog"; "-f"; "bin"] (boot fs true PERMUTE)) =
    [Opened 0; Wrote Stdout (lit "verbose = 0\n"); Wrote Stdout (lit "number  = 0\n");
     Wrote Stdout "a"; Wrote Stdout (lit "c\n")].
Proof. by_computation. Qed.

Example basename_examples :
  basename "/usr/bin/prog" = "prog" ∧ basename "./a.out" = "a.out" ∧
  basename "prog" = "prog" ∧ basename "/usr/lib/" = "lib" ∧ basename "//" = "/" ∧
  basename "" = ".".
Proof. by_computation. Qed.

Lemma file_round_trip_witness :
  accepted demo_fs (command_line PERMUTE ["./prog"; "-f"; "a.txt"]) = true ∧
  last_f (command_line PERMUTE ["./prog"; "-f"; "a.txt"]) = Some "a.txt" ∧
  demo_fs !! "a.txt" = Some (Readable (Stream line79 false)) ∧
  is_text line79 = true ∧
  status_of (run ["./prog"; "-f"; "a.txt"] (boot demo_fs true PERMUTE)) = Some EXIT_SUCCESS ∧
  stdout_of (run ["./prog"; "-f"; "a.txt"] (boot demo_fs true PERMUTE)) =
    verbose_line (shown_verbose PERMUTE ["./prog"; "-f"; "a.txt"]) +:+
    number_line (shown_number PERMUTE ["./prog"; "-f"; "a.txt"]) +:+ line79.
Proof.
  assert (H1 : accepted demo_fs (command_line PERMUTE ["./prog"; "-f"; "a.txt"]) = true)
    by by_computation.
  assert (H2 : last_f (command_line PERMUTE ["./prog"; "-f"; "a.txt"]) = Some "a.txt")
    by by_computation.
  assert (H3 : demo_fs !! "a.txt" = Some (Readable (Stream line79 false))) by by_computation.
  assert (H4 : is_text line79 = true) by by_computation.
  exact (conj H1 (conj H2 (conj H3 (conj H4
    (file_round_trip demo_fs PERMUTE ["./prog"; "-f"; "a.txt"] "a.txt" line79 H1 H2 H3 H4))))).
Defined.

Lemma number_line_shows_value_witness :
  accepted demo_fs (command_line PERMUTE ["prog"; "-n"; "2147483647"; "-f"; "b.txt"]) = true ∧
  last_n (command_line PERMUTE ["prog"; "-n"; "2147483647"; "-f"; "b.txt"]) = Some "2147483647" ∧
  canonical "2147483647" = true ∧ decimal_value "2147483647" ≤ INT_MAX ∧
  ∃ rest, stdout_of (run ["prog"; "-n"; "2147483647"; "-f"; "b.txt"] (boot demo_fs true PERMUTE)) =
            verbose_line (shown_verbose PERMUTE ["prog"; "-n"; "2147483647"; "-f"; "b.txt"]) +:+
            ("number  = " +:+ "2147483647" +:+ lit "\n") +:+ rest.
Proof.
  assert (H1 : accepted demo_fs
                 (command_line PERMUTE ["prog"; "-n"; "2147483647"; "-f"; "b.txt"]) = true)
    by by_computation.
  assert (H2 : last_n (command_line PERMUTE ["prog"; "-n"; "2147483647"; "-f"; "b.txt"]) =
               Some "2147483647") by by_computation.
  assert (H3 : canonical "2147483647" = true) by by_computation.
  assert (H4 : decimal_value "2147483647" ≤ INT_MAX) by by_computation.
  exact (conj H1 (conj H2 (conj H3 (conj H4
    (proj1 (proj2 (number_line_shows_value demo_fs PERMUTE _ "2147483647" H1 H2)) H3 H4))))).
Defined.

(** [-n 2147483648] prints a negative number, and [-n 12abc] prints 12. *)
Lemma number_beyond_INT_MAX :
  is_decimal "2147483648" = true ∧ decimal_value "2147483648" = 2147483648 ∧
  log_of (run ["prog"; "-n"; "2147483648"; "-f"; "b.txt"] (boot demo_fs true PERMUTE)) =
    [Opened 0; Wrote Stdout (lit "verbose = 0\n"); Wrote Stdout (lit "number  = -2147483648\n");
     Wrote Stdout (lit "first\n"); Wrote Stdout (lit "second\n")] ∧
  is_decimal "12abc" = false ∧
  log_of (run ["prog"; "-n"; "12abc"; "-f"; "b.txt"] (boot demo_fs true PERMUTE)) =
    [Opened 0; Wrote Stdout (lit "verbose = 0\n"); Wrote Stdout (lit "number  = 12\n");
     Wrote Stdout (lit "first\n"); Wrote Stdout (lit "second\n")].
Proof. by_computation. Qed.

Lemma copy_splits_long_lines_witness :
  let w := set_open {[ 7%nat := Stream line200 false ]} (boot ∅ true PERMUTE) in
  w_open w !! 7%nat = Some (Stream line200 false) ∧
  is_text line200 = true ∧
  writable Stdout w = true ∧
  ∃ w' pieces,
    dump_file (Some 7%nat) Stdout w = Ret 0 w' ∧
    w_log w' = w_log w ++ (Wrote Stdout <$> pieces) ∧
    concat pieces = line200 ∧
    Forall (λ s, (0 < String.length s)%nat ∧ (String.length s + 1 ≤ 79)%nat ∧
                 ends_at_LF s = true) pieces ∧
    ((78 < String.length line200)%nat → (2 ≤ length pieces)%nat).
Proof.
  set (w := set_open {[ 7%nat := Stream line200 false ]} (boot ∅ true PERMUTE)).
  assert (H1 : w_open w !! 7%nat = Some (Stream line200 false)) by by_computation.
  assert (H2 : is_text line200 = true) by by_computation.
  assert (H3 : writable Stdout w = true) by by_computation.
  exact (conj H1 (conj H2 (conj H3 (copy_splits_long_lines 7 Stdout line200 w H1 H2 H3)))).
Defined.

Lemma verbose_counts_flags_witness :
  Z.of_nat (count_v (command_line PERMUTE ["prog"; "-v"; "-vv"; "-f"; "b.txt"; "-v"])) ≤ INT_MAX ∧
  count_v (command_line PERMUTE ["prog"; "-v"; "-vv"; "-f"; "b.txt"; "-v"]) = 4%nat ∧
  (if accepted demo_fs (command_line PERMUTE ["prog"; "-v"; "-vv"; "-f"; "b.txt"; "-v"])
   then ∃ rest, stdout_of (run ["prog"; "-v"; "-vv"; "-f"; "b.txt"; "-v"] (boot demo_fs true PERMUTE)) =
                  verbose_line (Z.of_nat (count_v (command_line PERMUTE
                                   ["prog"; "-v"; "-vv"; "-f"; "b.txt"; "-v"]))) +:+ rest
   else stdout_of (run ["prog"; "-v"; "-vv"; "-f"; "b.txt"; "-v"] (boot demo_fs true PERMUTE)) = "").
Proof.
  assert (H1 : Z.of_nat (count_v (command_line PERMUTE
                  ["prog"; "-v"; "-vv"; "-f"; "b.txt"; "-v"])) ≤ INT_MAX) by by_computation.
  assert (H2 : count_v (command_line PERMUTE ["prog"; "-v"; "-vv"; "-f"; "b.txt"; "-v"]) = 4%nat)
    by by_computation.
  exact (conj H1 (conj H2 (proj1 (verbose_counts_flags demo_fs PERMUTE _ H1)))).
Defined.

Lemma one_stream_at_a_time_witness :
  accepted demo_fs (command_line PERMUTE ["prog"; "-f"; "a.txt"; "-f"; "b.txt"]) = true ∧
  last_f (command_line PERMUTE ["prog"; "-f"; "a.txt"; "-f"; "b.txt"]) = Some "b.txt" ∧
  demo_fs !! "b.txt" = Some (Readable (Stream (lit "first\nsecond\n") false)) ∧
  is_text (lit "first\nsecond\n") = true ∧
  status_of (run ["prog"; "-f"; "a.txt"; "-f"; "b.txt"] (boot demo_fs true PERMUTE)) =
    Some EXIT_SUCCESS ∧
  stdout_of (run ["prog"; "-f"; "a.txt"; "-f"; "b.txt"] (boot demo_fs true PERMUTE)) =
    verbose_line (shown_verbose PERMUTE ["prog"; "-f"; "a.txt"; "-f"; "b.txt"]) +:+
    number_line (shown_number PERMUTE ["prog"; "-f"; "a.txt"; "-f"; "b.txt"]) +:+
    lit "first\nsecond\n" ∧
  stderr_of (run ["prog"; "-f"; "a.txt"; "-f"; "b.txt"] (boot demo_fs true PERMUTE)) = "".
Proof.
  assert (H1 : accepted demo_fs (command_line PERMUTE ["prog"; "-f"; "a.txt"; "-f"; "b.txt"]) = true)
    by by_computation.
  assert (H2 : last_f (command_line PERMUTE ["prog"; "-f"; "a.txt"; "-f"; "b.txt"]) = Some "b.txt")
    by by_computation.
  assert (H3 : demo_fs !! "b.txt" = Some (Readable (Stream (lit "first\nsecond\n") false)))
    by by_computation.
  assert (H4 : is_text (lit "first\nsecond\n") = true) by by_computation.
  exact (conj H1 (conj H2 (conj H3 (conj H4
    (proj2 (one_stream_at_a_time demo_fs true PERMUTE ["prog"; "-f"; "a.txt"; "-f"; "b.txt"])
       _ _ H1 H2 H3 H4 eq_refl))))).
Defined.

Example run_closes_before_opening :
  log_of (run ["prog"; "-f"; "a.txt"; "-f"; "b.txt"] (boot demo_fs true PERMUTE)) =
    [Opened 0; Closed 0; Opened 1;
     Wrote Stdout (lit "verbose = 0\n"); Wrote Stdout (lit "number  = 0\n");
     Wrote Stdout (lit "first\n"); Wrote Stdout (lit "second\n")].
Proof. by_computation. Qed.


Example usage_names_the_program :
  usage_message "/usr/local/bin/prog" = lit "usage: prog [-v]|[-f filename][-n integer]\n".
Proof. by_computation. Qed.


Lemma open_failure_exits_witness :
  let argv := ["prog"; "-v"; "-f"; "b.txt"; "-f"; "secret"; "-n"; "3"] in
  OptF "secret" ∈ command_line PERMUTE argv ∧
  readable demo_fs "secret" = false ∧
  status_of (run argv (boot demo_fs true PERMUTE)) = Some EXIT_FAILURE ∧
  stdout_of (run argv (boot demo_fs true PERMUTE)) = "" ∧
  stderr_of (run argv (boot demo_fs true PERMUTE)) =
    "-f: error opening file: " +:+ strerror (open_errno demo_fs "secret") +:+ lit "\n" ∧
  ∃ evs, log_of (run argv (boot demo_fs true PERMUTE)) =
           evs ++ [Wrote Stderr (open_error (open_errno demo_fs "secret"))] ∧ quiet evs.
Proof.
  set (argv := ["prog"; "-v"; "-f"; "b.txt"; "-f"; "secret"; "-n"; "3"]).
  assert (H0 : command_line PERMUTE argv =
               [OptV; OptF "b.txt"] ++ OptF "secret" :: [OptN "3"]) by by_computation.
  assert (H1 : OptF "secret" ∈ command_line PERMUTE argv).
  { rewrite H0. by repeat constructor. }
  assert (H2 : readable demo_fs "secret" = false) by by_computation.
  assert (H3 : accepted demo_fs [OptV; OptF "b.txt"] = true) by by_computation.
  destruct (open_failure_exits demo_fs true PERMUTE argv "secret" H1 H2)
    as (Hst & Hout & _ & Hreach).
  exact (conj H1 (conj H2 (conj Hst (conj Hout (Hreach _ _ H0 H3))))).
Defined.

(** An unknown flag before a [-f] that cannot be opened: the usage line,
    and no description of the open failure. *)
Lemma open_failure_after_unknown_flag :
  command_line PERMUTE ["prog"; "-z"; "-f"; "missing"] = [OptBad; OptF "missing"] ∧
  readable demo_fs "missing" = false ∧
  log_of (run ["prog"; "-z"; "-f"; "missing"] (boot demo_fs true PERMUTE)) =
    [Wrote Stderr (lit "usage: prog [-v]|[-f filename][-n integer]\n")] ∧
  status_of (run ["prog"; "-z"; "-f"; "missing"] (boot demo_fs true PERMUTE)) = Some EXIT_FAILURE.
Proof. by_computation. Qed.

Example run_open_failure :
  log_of (run ["prog"; "-v"; "-f"; "b.txt"; "-f"; "secret"; "-n"; "3"] (boot demo_fs true PERMUTE)) =
    [Opened 0; Closed 0; Wrote Stderr (lit "-f: error opening file: Permission denied\n")].
Proof. by_computation. Qed.

Lemma verbosity_changes_one_line_witness :
  head ["prog"; "-vv"; "-n"; "5"; "-v"; "-f"; "b.txt"] = head ["prog"; "-n"; "5"; "-f"; "b.txt"] ∧
  without_v (command_line PERMUTE ["prog"; "-vv"; "-n"; "5"; "-v"; "-f"; "b.txt"]) =
    without_v (command_line PERMUTE ["prog"; "-n"; "5"; "-f"; "b.txt"]) ∧
  status_of (run ["prog"; "-vv"; "-n"; "5"; "-v"; "-f"; "b.txt"] (boot demo_fs true PERMUTE)) =
    status_of (run ["prog"; "-n"; "5"; "-f"; "b.txt"] (boot demo_fs true PERMUTE)) ∧
  stderr_of (run ["prog"; "-vv"; "-n"; "5"; "-v"; "-f"; "b.txt"] (boot demo_fs true PERMUTE)) =
    stderr_of (run ["prog"; "-n"; "5"; "-f"; "b.txt"] (boot demo_fs true PERMUTE)).
Proof.
  assert (H1 : head ["prog"; "-vv"; "-n"; "5"; "-v"; "-f"; "b.txt"] =
               head ["prog"; "-n"; "5"; "-f"; "b.txt"]) by by_computation.
  assert (H2 : without_v (command_line PERMUTE ["prog"; "-vv"; "-n"; "5"; "-v"; "-f"; "b.txt"]) =
               without_v (command_line PERMUTE ["prog"; "-n"; "5"; "-f"; "b.txt"]))
    by by_computation.
  destruct (verbosity_changes_one_line demo_fs true PERMUTE _ _ H1 H2) as (Hst & Herr & _).
  exact (conj H1 (conj H2 (conj Hst Herr))).
Defined.

Example run_verbosity :
  stdout_of (run ["prog"; "-vv"; "-n"; "5"; "-v"; "-f"; "b.txt"] (boot demo_fs true PERMUTE)) =
    lit "verbose = 3\nnumber  = 5\nfirst\nsecond\n" ∧
  stdout_of (run ["prog"; "-n"; "5"; "-f"; "b.txt"] (boot demo_fs true PERMUTE)) =
    lit "verbose = 0\nnumber  = 5\nfirst\nsecond\n".
Proof. by_computation. Qed.

Lemma missing_input_after_summary_witness :
  accepted demo_fs (command_line PERMUTE ["prog"; "-n"; "7"; "-v"]) = true ∧
  last_f (command_line PERMUTE ["prog"; "-n"; "7"; "-v"]) = None ∧
  Z.of_nat (count_v (command_line PERMUTE ["prog"; "-n"; "7"; "-v"])) ≤ INT_MAX ∧
  status_of (run ["prog"; "-n"; "7"; "-v"] (boot demo_fs true PERMUTE)) = Some EXIT_FAILURE ∧
  log_of (run ["prog"; "-n"; "7"; "-v"] (boot demo_fs true PERMUTE)) =
    [Wrote Stdout ("verbose = " +:+
                   print_int (Z.of_nat (count_v (command_line PERMUTE ["prog"; "-n"; "7"; "-v"]))) +:+
                   lit "\n");
     Wrote Stdout ("number  = " +:+ print_int (shown_number PERMUTE ["prog"; "-n"; "7"; "-v"]) +:+
                   lit "\n");
     Wrote Stderr (lit "dump_file: Invalid argument\n")].
Proof.
  assert (H1 : accepted demo_fs (command_line PERMUTE ["prog"; "-n"; "7"; "-v"]) = true)
    by by_computation.
  assert (H2 : last_f (command_line PERMUTE ["prog"; "-n"; "7"; "-v"]) = None) by by_computation.
  assert (H3 : Z.of_nat (count_v (command_line PERMUTE ["prog"; "-n"; "7"; "-v"])) ≤ INT_MAX)
    by by_computation.
  exact (conj H1 (conj H2 (conj H3 (missing_input_after_summary demo_fs PERMUTE _ H1 H2 H3)))).
Defined.

(** Without [-f] and with one [-v], the first line is [verbose = 1]. *)
Lemma verbose_line_without_input :
  command_line PERMUTE ["prog"; "-v"] = [OptV] ∧
  log_of (run ["prog"; "-v"] (boot demo_fs true PERMUTE)) =
    [Wrote Stdout (lit "verbose = 1\n"); Wrote Stdout (lit "number  = 0\n");
     Wrote Stderr (lit "dump_file: Invalid argument\n")] ∧
  status_of (run ["prog"; "-v"] (boot demo_fs true PERMUTE)) = Some EXIT_FAILURE.
Proof. by_computation. Qed.

Lemma dump_file_writes_text_to_output_witness :
  let f := Stream (String "a" (String NUL (lit "b\nc"))) true in
  let w := set_open {[ 7%nat := f ]} (boot ∅ true PERMUTE) in
  w_open w !! 7%nat = Some f ∧
  ∃ w' pieces,
    dump_file (Some 7%nat) Stdout w = Ret 0 w' ∧
    w_log w' = w_log w ++ (Wrote Stdout <$> pieces) ∧
    Forall (λ s, is_text s = true) pieces ∧
    (String.length (concat pieces) ≤ String.length (s_data f))%nat ∧
    dom (w_open w') = dom (w_open w) ∧
    w_fs w' = w_fs w.
Proof.
  set (f := Stream (String "a" (String NUL (lit "b\nc"))) true).
  set (w := set_open {[ 7%nat := f ]} (boot ∅ true PERMUTE)).
  assert (H1 : w_open w !! 7%nat = Some f) by by_computation.
  exact (conj H1 (dump_file_writes_text_to_output 7 Stdout f w H1)).
Defined.

Lemma short_lines_are_copied_line_by_line_witness :
  let data := lit "first\nsecond\nlast" in
  let w := set_open {[ 7%nat := Stream data false ]} (boot ∅ true PERMUTE) in
  w_open w !! 7%nat = Some (Stream data false) ∧
  writable Stdout w = true ∧
  is_text data = true ∧
  Forall (λ l, (String.length l ≤ 78)%nat) (split_lines data) ∧
  ∃ w', dump_file (Some 7%nat) Stdout w = Ret 0 w' ∧
        w_log w' = w_log w ++ (Wrote Stdout <$> split_lines data).
Proof.
  set (data := lit "first\nsecond\nlast").
  set (w := set_open {[ 7%nat := Stream data false ]} (boot ∅ true PERMUTE)).
  assert (H1 : w_open w !! 7%nat = Some (Stream data false)) by by_computation.
  assert (H2 : writable Stdout w = true) by by_computation.
  assert (H3 : is_text data = true) by by_computation.
  assert (H4 : Forall (λ l, (String.length l ≤ 78)%nat) (split_lines data))
    by (vm_compute; repeat constructor).
  exact (conj H1 (conj H2 (conj H3 (conj H4
    (short_lines_are_copied_line_by_line 7 Stdout data w H1 H2 H3 H4))))).
Defined.

Lemma copied_file_stays_open_witness :
  accepted demo_fs (command_line PERMUTE ["prog"; "-f"; "a.txt"; "-vf"; "b.txt"]) = true ∧
  ∃ s w', run ["prog"; "-f"; "a.txt"; "-vf"; "b.txt"] (boot demo_fs false PERMUTE) = Exit s w' ∧
          size (w_open w') =
            match last_f (command_line PERMUTE ["prog"; "-f"; "a.txt"; "-vf"; "b.txt"]) with
            | Some _ => 1%nat
            | None => 0%nat
            end.
Proof.
  assert (H1 : accepted demo_fs
                 (command_line PERMUTE ["prog"; "-f"; "a.txt"; "-vf"; "b.txt"]) = true)
    by by_computation.
  exact (conj H1 (copied_file_stays_open demo_fs false PERMUTE
                    ["prog"; "-f"; "a.txt"; "-vf"; "b.txt"] H1)).
Defined.

Lemma operands_are_ignored_witness :
  let w := boot demo_fs true REQUIRE_ORDER in
  NONOPTION_P "b.txt" = true ∧
  run ("prog" :: render [OptV] ++ "b.txt" :: ["-v"]) w =
    run ("prog" :: render [OptV] ++
           match w_ordering w with PERMUTE => ["-v"] | REQUIRE_ORDER => [] end) w ∧
  run ("prog" :: render [OptV] ++ "--" :: ["-v"]) w = run ("prog" :: render [OptV]) w.
Proof.
  assert (H1 : NONOPTION_P "b.txt" = true) by by_computation.
  exact (conj H1 (operands_are_ignored "prog" [OptV] "b.txt" ["-v"]
                    (boot demo_fs true REQUIRE_ORDER) H1)).
Defined.

Lemma last_flags_decide_witness :
  let argv1 := ["prog"; "-n"; "1"; "-v"; "-f"; "a.txt"; "-n"; "5"; "-f"; "b.txt"] in
  let argv2 := ["prog"; "-f"; "b.txt"; "-vn5"] in
  accepted demo_fs (command_line PERMUTE argv1) = true ∧
  accepted demo_fs (command_line PERMUTE argv2) = true ∧
  count_v (command_line PERMUTE argv1) = count_v (command_line PERMUTE argv2) ∧
  last_n (command_line PERMUTE argv1) = last_n (command_line PERMUTE argv2) ∧
  last_f (command_line PERMUTE argv1) = last_f (command_line PERMUTE argv2) ∧
  status_of (run argv1 (boot demo_fs true PERMUTE)) =
    status_of (run argv2 (boot demo_fs true PERMUTE)) ∧
  stdout_of (run argv1 (boot demo_fs true PERMUTE)) =
    stdout_of (run argv2 (boot demo_fs true PERMUTE)) ∧
  stderr_of (run argv1 (boot demo_fs true PERMUTE)) =
    stderr_of (run argv2 (boot demo_fs true PERMUTE)).
Proof.
  set (argv1 := ["prog"; "-n"; "1"; "-v"; "-f"; "a.txt"; "-n"; "5"; "-f"; "b.txt"]).
  set (argv2 := ["prog"; "-f"; "b.txt"; "-vn5"]).
  assert (H1 : accepted demo_fs (command_line PERMUTE argv1) = true) by by_computation.
  assert (H2 : accepted demo_fs (command_line PERMUTE argv2) = true) by by_computation.
  assert (H3 : count_v (command_line PERMUTE argv1) = count_v (command_line PERMUTE argv2))
    by by_computation.
  assert (H4 : last_n (command_line PERMUTE argv1) = last_n (command_line PERMUTE argv2))
    by by_computation.
  assert (H5 : last_f (command_line PERMUTE argv1) = last_f (command_line PERMUTE argv2))
    by by_computation.
  exact (conj H1 (conj H2 (conj H3 (conj H4 (conj H5
    (last_flags_decide demo_fs true PERMUTE argv1 argv2 H1 H2 H3 H4 H5)))))).
Defined.

Lemma number_wraps_around_witness :
  let argv := ["prog"; "-n"; "4294967301"] in
  accepted demo_fs (command_line PERMUTE argv) = true ∧
  last_n (command_line PERMUTE argv) = Some "4294967301" ∧
  is_decimal "4294967301" = true ∧
  stored_number (decimal_value "4294967301") = 5 ∧
  ∃ rest, stdout_of (run argv (boot demo_fs true PERMUTE)) =
            verbose_line (shown_verbose PERMUTE argv) +:+
            number_line (stored_number (decimal_value "4294967301")) +:+ rest.
Proof.
  set (argv := ["prog"; "-n"; "4294967301"]).
  assert (H1 : accepted demo_fs (command_line PERMUTE argv) = true) by by_computation.
  assert (H2 : last_n (command_line PERMUTE argv) = Some "4294967301") by by_computation.
  assert (H3 : is_decimal "4294967301" = true) by by_computation.
  assert (H4 : stored_number (decimal_value "4294967301") = 5) by by_computation.
  exact (conj H1 (conj H2 (conj H3 (conj H4
    (proj1 (number_wraps_around demo_fs PERMUTE argv "4294967301" H1 H2 H3)))))).
Defined.

Lemma negative_number_is_shown_witness :
  let argv := ["prog"; "-n"; "-5"] in
  accepted demo_fs (command_line PERMUTE argv) = true ∧
  last_n (command_line PERMUTE argv) = Some (String "-" "5") ∧
  is_decimal "5" = true ∧
  decimal_value "5" ≤ 2147483648 ∧
  ∃ rest, stdout_of (run argv (boot demo_fs true PERMUTE)) =
            verbose_line (shown_verbose PERMUTE argv) +:+
            number_line (- decimal_value "5") +:+ rest.
Proof.
  set (argv := ["prog"; "-n"; "-5"]).
  assert (H1 : accepted demo_fs (command_line PERMUTE argv) = true) by by_computation.
  assert (H2 : last_n (command_line PERMUTE argv) = Some (String "-" "5")) by by_computation.
  assert (H3 : is_decimal "5" = true) by by_computation.
  assert (H4 : decimal_value "5" ≤ 2147483648) by by_computation.
  exact (conj H1 (conj H2 (conj H3 (conj H4
    (negative_number_is_shown demo_fs PERMUTE argv "5" H1 H2 H3 H4))))).
Defined.

Lemma missing_argument_is_usage_witness :
  accepted demo_fs [OptV; OptF "b.txt"] = true ∧
  ("-n" = "-f" ∨ "-n" = "-n") ∧
  status_of (run ("./prog" :: render [OptV; OptF "b.txt"] ++ ["-n"])
               (boot demo_fs true PERMUTE)) = Some EXIT_FAILURE ∧
  stdout_of (run ("./prog" :: render [OptV; OptF "b.txt"] ++ ["-n"])
               (boot demo_fs true PERMUTE)) = "" ∧
  stderr_of (run ("./prog" :: render [OptV; OptF "b.txt"] ++ ["-n"])
               (boot demo_fs true PERMUTE)) =
    "usage: " +:+ c_str (basename "./prog") +:+ lit " [-v]|[-f filename][-n integer]\n".
Proof.
  assert (H1 : accepted demo_fs [OptV; OptF "b.txt"] = true) by by_computation.
  assert (H2 : "-n" = "-f" ∨ "-n" = "-n") by (right; reflexivity).
  exact (conj H1 (conj H2
    (missing_argument_is_usage demo_fs true PERMUTE "./prog" [OptV; OptF "b.txt"] "-n" H1 H2))).
Defined.

Lemma getopt_returns_known_codes_witness :
  let g := set_opterr 0 getopt_init in
  let w := boot demo_fs true PERMUTE in
  scanning ["prog"; "-h"] g ∧
  ∃ r g', getopt ["prog"; "-h"] OPTSTR g w = Ret (r, g') w ∧
          (r = EOF ∨ r = ch "v" ∨ r = ch "f" ∨ r = ch "n" ∨ r = ch "?") ∧
          r ≠ ch "h" ∧
          scanning ["prog"; "-h"] g'.
Proof.
  assert (H1 : scanning ["prog"; "-h"] (set_opterr 0 getopt_init))
    by (split; [reflexivity|discriminate]).
  exact (conj H1 (getopt_returns_known_codes ["prog"; "-h"] (set_opterr 0 getopt_init)
                    (boot demo_fs true PERMUTE) H1)).
Defined.

Lemma usage_leaves_directory_out_witness :
  (0 < String.length "prog")%nat ∧
  contains "/" "prog" = false ∧
  command_line PERMUTE (("/usr/local/bin" +:+ String "/" "prog") :: ["-x"]) =
    [] ++ OptBad :: [] ∧
  accepted demo_fs [] = true ∧
  stderr_of (run (("/usr/local/bin" +:+ String "/" "prog") :: ["-x"])
               (boot demo_fs true PERMUTE)) =
    "usage: " +:+ c_str "prog" +:+ lit " [-v]|[-f filename][-n integer]\n".
Proof.
  assert (H1 : (0 < String.length "prog")%nat) by (cbn; lia).
  assert (H2 : contains "/" "prog" = false) by by_computation.
  assert (H3 : command_line PERMUTE (("/usr/local/bin" +:+ String "/" "prog") :: ["-x"]) =
               [] ++ OptBad :: []) by by_computation.
  assert (H4 : accepted demo_fs [] = true) by by_computation.
  exact (conj H1 (conj H2 (conj H3 (conj H4
    (usage_leaves_directory_out demo_fs true PERMUTE "/usr/local/bin" "prog" ["-x"] [] []
       H1 H2 H3 H4))))).
Defined.

Lemma accepted_run_log_witness :
  let argv := ["prog"; "-f"; "a.txt"; "-f"; "b.txt"; "-f"; "b.txt"] in
  accepted demo_fs (command_line PERMUTE argv) = true ∧
  log_of (run argv (boot demo_fs true PERMUTE)) =
    [Opened 0%nat; Closed 0%nat; Opened 1%nat; Closed 1%nat; Opened 2%nat;
     Wrote Stdout (lit "verbose = 0\n"); Wrote Stdout (lit "number  = 0\n");
     Wrote Stdout (lit "first\n"); Wrote Stdout (lit "second\n")].
Proof.
  set (argv := ["prog"; "-f"; "a.txt"; "-f"; "b.txt"; "-f"; "b.txt"]).
  assert (H1 : accepted demo_fs (command_line PERMUTE argv) = true)
    by (vm_compute; reflexivity).
  exact (conj H1 (eq_trans (accepted_run_log demo_fs true PERMUTE argv H1) eq_refl)).
Defined.
